(** * semver-action: the commit-to-version-bump run of [src/index.js]

    A shallow embedding of [main] and of the table [bumpTypes], followed by
    the properties of the pagination loop, the bump classifier and the
    output sink that the specification states.

    The four npm packages the script calls ([@actions/github],
    [@conventional-commits/parser], [semver], [@actions/core]) are not part
    of the repository.  The first three are taken as variables of the
    section [Run]; the calls to the last one are recorded, in order, as a
    list of events. *)

From Stdlib Require Import String Ascii List Arith Bool Lia Permutation.
Import ListNotations.
Open Scope string_scope.
Open Scope list_scope.
Open Scope nat_scope.

(** ** JavaScript values and string helpers *)

(** What [semver.inc] returns: a version string, or [null]. *)
Inductive JsVal : Type :=
| JsNull
| JsString (s : string).

(** A value inside a template literal, [`${v}`]. *)
Definition template (v : JsVal) : string :=
  match v with
  | JsNull => "null"
  | JsString s => s
  end.

Definition nl : string := String (ascii_of_nat 10) EmptyString.

Definition upper_ascii (c : ascii) : ascii :=
  let n := nat_of_ascii c in
  if (97 <=? n) && (n <=? 122) then ascii_of_nat (n - 32) else c.

(** [String.prototype.toUpperCase] on ASCII text. *)
Fixpoint toUpperCase (s : string) : string :=
  match s with
  | EmptyString => EmptyString
  | String c s' => String (upper_ascii c) (toUpperCase s')
  end.

(** [Array.prototype.includes] on an array of strings. *)
Definition includes (l : list string) (s : string) : bool :=
  existsb (String.eqb s) l.

(** ** Data *)

(** A node of the tag query: [{ name, target { oid } }]. *)
Record Tag : Type := { name : string; oid : string }.

(** An element of [data.commits]: [sha] and [commit.message]. *)
Record Commit : Type := { sha : string; message : string }.

(** The fields of a compare response that [main] reads through [_.get];
    [None] is a path that is absent from the response. *)
Record CompareResponse : Type :=
  { total_commits : option nat;
    commits : option (list Commit) }.

(** The fields [main] reads of the result of
    [cc.toConventionalChangelogFormat]. *)
Record Note : Type := { title : string; text : string }.
Record CAst : Type := { type : string; notes : list Note }.

(** [_.get(object, path, defaultValue)] *)
Definition get {A : Type} (field : option A) (defaultValue : A) : A :=
  match field with
  | Some v => v
  | None => defaultValue
  end.

(** The table of lines 7-11. *)
Record BumpTypes : Type :=
  { major : list string; minor : list string; patch : list string }.

Definition bumpTypes : BumpTypes :=
  {| major := [];
     minor := ["feat"; "feature"];
     patch := ["fix"; "bugfix"; "perf"; "refactor"; "test"; "tests"] |}.

(** The three values [bump] takes once it is assigned. *)
Inductive Bump : Type := BumpMajor | BumpMinor | BumpPatch.

Definition bump_name (b : Bump) : string :=
  match b with
  | BumpMajor => "major"
  | BumpMinor => "minor"
  | BumpPatch => "patch"
  end.

(** The three counters of lines 78-80. *)
Record Tally : Type :=
  { majorChanges : nat; minorChanges : nat; patchChanges : nat }.

Definition tally0 : Tally :=
  {| majorChanges := 0; minorChanges := 0; patchChanges := 0 |}.

Definition incr_major (t : Tally) : Tally :=
  {| majorChanges := S (majorChanges t);
     minorChanges := minorChanges t;
     patchChanges := patchChanges t |}.

Definition incr_minor (t : Tally) : Tally :=
  {| majorChanges := majorChanges t;
     minorChanges := S (minorChanges t);
     patchChanges := patchChanges t |}.

Definition incr_patch (t : Tally) : Tally :=
  {| majorChanges := majorChanges t;
     minorChanges := minorChanges t;
     patchChanges := S (patchChanges t) |}.

(** ** The output sink

    Every call to [@actions/core] that writes something, in program order. *)
Inductive Event : Type :=
| core_info (msg : string)
| core_setFailed (msg : string)
| core_exportVariable (var : string) (val : JsVal).

Definition failures (tr : list Event) : list string :=
  flat_map (fun e => match e with core_setFailed m => [m] | _ => [] end) tr.

Definition exports (tr : list Event) : list (string * JsVal) :=
  flat_map (fun e => match e with core_exportVariable x v => [(x, v)] | _ => [] end) tr.

(** ** The classifier, lines 78-116 *)

(** Lines 84-95: the chain of [includes] tests on [cAst.type]. *)
Definition bump_by_type (t : Tally) (c : Commit) (cAst : CAst) : Tally * list Event :=
  if includes (major bumpTypes) (type cAst) then
    (incr_major t,
     [core_info ("[MAJOR] Commit " ++ sha c ++ " of type " ++ type cAst
                 ++ " will cause a major version bump.")])
  else if includes (minor bumpTypes) (type cAst) then
    (incr_minor t,
     [core_info ("[MINOR] Commit " ++ sha c ++ " of type " ++ type cAst
                 ++ " will cause a minor version bump.")])
  else if includes (patch bumpTypes) (type cAst) then
    (incr_patch t,
     [core_info ("[PATCH] Commit " ++ sha c ++ " of type " ++ type cAst
                 ++ " will cause a patch version bump.")])
  else
    (t,
     [core_info ("[SKIP] Commit " ++ sha c ++ " of type " ++ type cAst
                 ++ " will not cause any version bump.")]).

(** Lines 96-101: the loop over [cAst.notes]. *)
Fixpoint bump_by_notes (t : Tally) (c : Commit) (ns : list Note) : Tally * list Event :=
  match ns with
  | [] => (t, [])
  | note :: ns' =>
      if String.eqb (title note) "BREAKING CHANGE" then
        let (t', log) := bump_by_notes (incr_major t) c ns' in
        (t',
         core_info ("[MAJOR] Commit " ++ sha c
                    ++ " has a BREAKING CHANGE mention, causing a major version bump.")
         :: log)
      else bump_by_notes t c ns'
  end.

(** Line 97 as a test on one note, and the number of notes that pass it. *)
Definition is_breaking (n : Note) : bool := String.eqb (title n) "BREAKING CHANGE".

Definition breaking_notes (cAst : CAst) : nat :=
  length (filter is_breaking (notes cAst)).

(** The resolution of lines 107-116; [None] is the branch that fails the run. *)
Definition resolve_bump (t : Tally) : option Bump :=
  if 0 <? majorChanges t then Some BumpMajor
  else if 0 <? minorChanges t then Some BumpMinor
  else if 0 <? patchChanges t then Some BumpPatch
  else None.

Definition msg_no_tag : string :=
  "Couldn't find the latest tag. Make sure you have at least one tag created first.".

Definition msg_no_commits : string :=
  "Couldn't find any commits between HEAD and latest tag.".

Definition msg_no_bump : string :=
  "No commit resulted in a version bump since last release!".

Section Run.

(** [cc.toConventionalChangelogFormat(cc.parser(message))]; [None] is a
    thrown exception. *)
Variable parser : string -> option CAst.

(** [semver.inc(version, release)]. *)
Variable semver_inc : string -> string -> JsVal.

(** [gh.rest.repos.compareCommitsWithBasehead], as a function of
    [basehead], [page] and [per_page], and its field [data]. *)
Variable compareCommitsWithBasehead : string -> nat -> nat -> CompareResponse.

(** The input [branch], and [repository.refs.nodes] of the tag query (an
    absent path is the empty list). *)
Variable branch : string.
Variable nodes : list Tag.

(** One iteration of the loop of lines 81-105, [try] and [catch] included. *)
Definition scan_commit (t : Tally) (c : Commit) : Tally * list Event :=
  match parser (message c) with
  | Some cAst =>
      let (t1, log1) := bump_by_type t c cAst in
      let (t2, log2) := bump_by_notes t1 c (notes cAst) in
      (t2, log1 ++ log2)
  | None =>
      (t,
       [core_info ("[INVALID] Skipping commit " ++ sha c
                   ++ " as it doesn't follow conventional commit format.")])
  end.

(** Lines 78-105, from a given state of the counters. *)
Fixpoint scan_from (t : Tally) (cs : list Commit) : Tally * list Event :=
  match cs with
  | [] => (t, [])
  | c :: cs' =>
      let (t1, log1) := scan_commit t c in
      let (t2, log2) := scan_from t1 cs' in
      (t2, log1 ++ log2)
  end.

Definition scan_commits (cs : list Commit) : Tally * list Event :=
  scan_from tally0 cs.

(** The decision of the classifier on a list of commits. *)
Definition decision (cs : list Commit) : option Bump :=
  resolve_bump (fst (scan_commits cs)).

(** ** The pagination loop, lines 50-70

    [fetch_loop fuel curPage acc] runs the [do ... while] from the state
    in which [curPage] pages have been requested and [acc] holds their
    commits; it returns the array [commits] and the last page requested.
    The loop of the script has no bound of its own, hence the fuel. *)
Fixpoint fetch_loop (latestTag : Tag) (fuel curPage : nat) (acc : list Commit)
  : option (list Commit * nat) :=
  match fuel with
  | 0 => None
  | S fuel' =>
      let curPage := S curPage in
      let commitsRaw :=
        compareCommitsWithBasehead (name latestTag ++ "..." ++ branch) curPage 100 in
      let totalCommits := get (total_commits commitsRaw) 0 in
      let rangeCommits := get (commits commitsRaw) [] in
      let acc := acc ++ rangeCommits in
      if (curPage - 1) * 100 + length rangeCommits <? totalCommits
      then fetch_loop latestTag fuel' curPage acc
      else Some (acc, curPage)
  end.

(** Lines 107-126, once the commits are there. *)
Definition bump_version (latestTag : Tag) (cs : list Commit) : list Event :=
  let (t, log) := scan_commits cs in
  match resolve_bump t with
  | None => log ++ [core_setFailed msg_no_bump]
  | Some bump =>
      let next := semver_inc (name latestTag) (bump_name bump) in
      log ++
      [core_info (nl ++ ">>> Will bump version " ++ name latestTag ++ " using "
                  ++ toUpperCase (bump_name bump) ++ nl);
       core_info ("Next version is v" ++ template next);
       core_exportVariable "next" (JsString ("v" ++ template next));
       core_exportVariable "nextStrict" next]
  end.

(** [main]; [None] when the pagination loop is still running after [fuel]
    requests. *)
Definition main (fuel : nat) : option (list Event) :=
  match nth_error nodes 0 with
  | None => Some [core_setFailed msg_no_tag]
  | Some latestTag =>
      match fetch_loop latestTag fuel 0 [] with
      | None => None
      | Some (cs, _) =>
          Some (core_info ("Comparing against latest tag: " ++ name latestTag)
                :: (if length cs <? 1
                    then [core_setFailed msg_no_commits]
                    else bump_version latestTag cs))
      end
  end.

End Run.

(** ** Vocabulary for the statements about the pagination loop *)

Section Pages.

Variable compareCommitsWithBasehead : string -> nat -> nat -> CompareResponse.
Variable branch : string.
Variable latestTag : Tag.

(** The response to the request for page [p], and the two fields read. *)
Definition page_response (p : nat) : CompareResponse :=
  compareCommitsWithBasehead (name latestTag ++ "..." ++ branch) p 100.

Definition page_commits (p : nat) : list Commit := get (commits (page_response p)) [].

Definition page_total (p : nat) : nat := get (total_commits (page_response p)) 0.

(** The left-hand side of the test of line 67 at page [p]. *)
Definition offset_estimate (p : nat) : nat := (p - 1) * 100 + length (page_commits p).

(** The commits of pages [1..n], in order: the cumulative fetch. *)
Definition fetched (n : nat) : list Commit := flat_map page_commits (seq 1 n).

(** [n] is the first page at which the test of line 67 fails. *)
Definition last_page (n : nat) : Prop :=
  1 <= n /\
  (forall p, 1 <= p < n -> offset_estimate p < page_total p) /\
  page_total n <= offset_estimate n.

End Pages.

(** ** Vocabulary for the statements about the classifier *)

Definition tally_add (a b : Tally) : Tally :=
  {| majorChanges := majorChanges a + majorChanges b;
     minorChanges := minorChanges a + minorChanges b;
     patchChanges := patchChanges a + patchChanges b |}.

(** What lines 84-101 add to the counters for a parsed commit. *)
Definition ast_delta (cAst : CAst) : Tally :=
  {| majorChanges :=
       (if includes (major bumpTypes) (type cAst) then 1 else 0) + breaking_notes cAst;
     minorChanges :=
       if includes (major bumpTypes) (type cAst) then 0
       else if includes (minor bumpTypes) (type cAst) then 1 else 0;
     patchChanges :=
       if includes (major bumpTypes) (type cAst) then 0
       else if includes (minor bumpTypes) (type cAst) then 0
       else if includes (patch bumpTypes) (type cAst) then 1 else 0 |}.

Definition commit_delta (parser : string -> option CAst) (c : Commit) : Tally :=
  match parser (message c) with
  | Some cAst => ast_delta cAst
  | None => tally0
  end.

(** The sum of what each commit of a list adds. *)
Definition tally_sum (parser : string -> option CAst) (cs : list Commit) : Tally :=
  fold_right (fun c acc => tally_add (commit_delta parser c) acc) tally0 cs.

(** A commit carries a breaking-change note when it parses and line 97
    holds for one of its notes. *)
Definition carries_breaking (parser : string -> option CAst) (c : Commit) : Prop :=
  exists cAst, parser (message c) = Some cAst /\ 1 <= breaking_notes cAst.

Definition is_info (e : Event) : bool :=
  match e with
  | core_info _ => true
  | _ => false
  end.

(** The claim about tag prefixes speaks of the leading non-numeric prefix of
    the tag name; this is that prefix, following the specification's words:
    the characters before the first decimal digit. *)
Definition is_digit (c : ascii) : bool :=
  let n := nat_of_ascii c in (48 <=? n) && (n <=? 57).

Fixpoint spec_tag_prefix (s : string) : string :=
  match s with
  | EmptyString => EmptyString
  | String c s' => if is_digit c then EmptyString else String c (spec_tag_prefix s')
  end.

(** The specification's reading of the two outputs: [next] is the prefix of
    the tag followed by [nextStrict]. *)
Definition spec_prefix_reattached (tagName : string) (out : list (string * JsVal)) : bool :=
  match out with
  | [(_, JsString next); (_, JsString nextStrict)] =>
      String.eqb next (spec_tag_prefix tagName ++ nextStrict)
  | _ => false
  end.

(** ** Sample collaborators

    Recorded answers of the external packages on a handful of inputs, used
    to run [main] on concrete data.  Outside the tables the sample parser
    rejects the message and the sample incrementer answers [null]. *)

Fixpoint assoc {A : Type} (k : string) (l : list (string * A)) : option A :=
  match l with
  | [] => None
  | (k', v) :: l' => if String.eqb k k' then Some v else assoc k l'
  end.

Definition breaking_note (txt : string) : Note :=
  {| title := "BREAKING CHANGE"; text := txt |}.

Definition sample_parses : list (string * CAst) :=
  [("fix: a", {| type := "fix"; notes := [] |});
   ("fix: b", {| type := "fix"; notes := [] |});
   ("feat: b", {| type := "feat"; notes := [] |});
   ("chore: x", {| type := "chore"; notes := [] |});
   ("chore!: drop node 10",
    {| type := "chore"; notes := [breaking_note "drop node 10"] |});
   (("fix: a" ++ nl ++ nl ++ "BREAKING CHANGE: drops support")%string,
    {| type := "fix"; notes := [breaking_note "drops support"] |});
   (("feat: c" ++ nl ++ nl ++ "BREAKING CHANGE: new config format")%string,
    {| type := "feat"; notes := [breaking_note "new config format"] |})].

Definition sample_parser (m : string) : option CAst := assoc m sample_parses.

Definition sample_versions : list (string * (string * string * string)) :=
  [("v1.2.3", ("2.0.0", "1.3.0", "1.2.4"));
   ("1.2.3", ("2.0.0", "1.3.0", "1.2.4"))].

Definition sample_semver_inc (version release : string) : JsVal :=
  match assoc version sample_versions with
  | Some (vmajor, vminor, vpatch) =>
      if String.eqb release "major" then JsString vmajor
      else if String.eqb release "minor" then JsString vminor
      else if String.eqb release "patch" then JsString vpatch
      else JsNull
  | None => JsNull
  end.

(** A fetcher that serves the given pages and reports [total] on each. *)
Definition paged (pages : list (list Commit)) (total : nat)
  : string -> nat -> nat -> CompareResponse :=
  fun _ page _ =>
    {| total_commits := Some total; commits := Some (nth (page - 1) pages []) |}.

Definition mk_commit (id msg : string) : Commit := {| sha := id; message := msg |}.

Definition tag_v123 : Tag := {| name := "v1.2.3"; oid := "0a1b2c3" |}.
Definition tag_123 : Tag := {| name := "1.2.3"; oid := "0a1b2c3" |}.
Definition tag_release_abc : Tag := {| name := "release-abc"; oid := "0a1b2c3" |}.

(** [main] on one page of commits with the sample collaborators. *)
Definition sample_run (t : Tag) (cs : list Commit) : option (list Event) :=
  main sample_parser sample_semver_inc (paged [cs] (length cs)) "main" [t] 5.

(** Two half pages followed by a short one, with a total of 120. *)
Definition half_pages : list (list Commit) :=
  [repeat (mk_commit "aaa" "fix: a") 50;
   repeat (mk_commit "bbb" "fix: b") 50;
   repeat (mk_commit "ccc" "feat: b") 20].

(** ** Vocabulary for the further properties *)

(** The order none < patch < minor < major on the outcome of lines 107-116. *)
Definition severity (d : option Bump) : nat :=
  match d with
  | None => 0
  | Some BumpPatch => 1
  | Some BumpMinor => 2
  | Some BumpMajor => 3
  end.

(** The commit parses and its type is in the list [l]. *)
Definition typed_in (parser : string -> option CAst) (l : list string) (c : Commit) : Prop :=
  exists cAst, parser (message c) = Some cAst /\ includes l (type cAst) = true.

(** The commit parses and its type is in the minor or in the patch list. *)
Definition listed_type (parser : string -> option CAst) (c : Commit) : bool :=
  match parser (message c) with
  | Some cAst =>
      includes (minor bumpTypes) (type cAst) || includes (patch bumpTypes) (type cAst)
  | None => false
  end.

(** A compare endpoint that keeps its pagination contract on the range
    [all]: page [p] holds the commits from index [(p - 1) * per_page] on, at
    most [per_page] of them, and every page reports the length of [all]. *)
Definition paginate (all : list Commit) : string -> nat -> nat -> CompareResponse :=
  fun _ page per_page =>
    {| total_commits := Some (length all);
       commits := Some (firstn per_page (skipn ((page - 1) * per_page) all)) |}.

(** An endpoint whose reported total stays ahead of every page. *)
Definition ever_growing : string -> nat -> nat -> CompareResponse :=
  fun _ page per_page =>
    {| total_commits := Some (page * per_page + 1); commits := Some [] |}.

(** An endpoint whose response has neither [total_commits] nor [commits]. *)
Definition bare_response : string -> nat -> nat -> CompareResponse :=
  fun _ _ _ => {| total_commits := None; commits := None |}.

(** ** Proof helpers *)

(** Equations between counters, once the record [t] is opened. *)
Ltac tally_arith t :=
  destruct t;
  unfold tally_add, tally0, incr_major, incr_minor, incr_patch;
  simpl; f_equal; lia.

(** A counter of a sum is zero when it is zero in every summand. *)
Ltac counter_zero_iff cs :=
  let c := fresh "c" in
  let IH := fresh "IH" in
  induction cs as [|c cs IH]; simpl;
  [ split; [intros _ ? [] | reflexivity]
  | rewrite Nat.eq_add_0, IH; split;
    [ intros [? ?] ? [<-|?]; auto
    | intros H; split; [apply H; now left | intros ? ?; apply H; now right] ] ].

(** A counter [f] of a sum is positive when it is positive in some summand. *)
Ltac counter_pos_iff cs f :=
  let a := fresh "a" in
  let IH := fresh "IH" in
  let x := fresh "x" in
  let Hin := fresh "Hin" in
  let Hx := fresh "Hx" in
  induction cs as [|a cs IH]; simpl;
  [ split; [lia | intros (x & [] & _)]
  | split;
    [ intros ?;
      destruct (Nat.eq_dec (f a) 0);
      [ destruct (proj1 IH ltac:(lia)) as (x & Hin & Hx);
        exists x; split; [now right | exact Hx]
      | exists a; split; [now left | lia] ]
    | intros (x & [<-|Hin] & Hx);
      [ lia
      | pose proof (proj2 IH (ex_intro _ x (conj Hin Hx))); lia ] ] ].

(** ** Scenarios of the specification *)

Example scenario_minor :
  sample_run tag_v123 [mk_commit "c1" "fix: a"; mk_commit "c2" "feat: b"]
  = Some
      [core_info "Comparing against latest tag: v1.2.3";
       core_info "[PATCH] Commit c1 of type fix will cause a patch version bump.";
       core_info "[MINOR] Commit c2 of type feat will cause a minor version bump.";
       core_info (nl ++ ">>> Will bump version v1.2.3 using MINOR" ++ nl);
       core_info "Next version is v1.3.0";
       core_exportVariable "next" (JsString "v1.3.0");
       core_exportVariable "nextStrict" (JsString "1.3.0")].
Proof. reflexivity. Qed.

Example scenario_patch :
  option_map exports
    (sample_run tag_v123 [mk_commit "c1" "fix: a"; mk_commit "c2" "fix: b"])
  = Some [("next", JsString "v1.2.4"); ("nextStrict", JsString "1.2.4")].
Proof. reflexivity. Qed.

Example scenario_unlisted :
  sample_run tag_v123 [mk_commit "c1" "chore: x"]
  = Some
      [core_info "Comparing against latest tag: v1.2.3";
       core_info "[SKIP] Commit c1 of type chore will not cause any version bump.";
       core_setFailed msg_no_bump].
Proof. reflexivity. Qed.

Example scenario_breaking :
  option_map exports
    (sample_run tag_v123
       [mk_commit "c1" ("fix: a" ++ nl ++ nl ++ "BREAKING CHANGE: drops support")])
  = Some [("next", JsString "v2.0.0"); ("nextStrict", JsString "2.0.0")].
Proof. reflexivity. Qed.

(** ** The counters as a sum over the commits *)

Lemma tally_add_0_r (t : Tally) : tally_add t tally0 = t.
Proof. tally_arith t. Qed.

Lemma tally_add_assoc (a b c : Tally) :
  tally_add (tally_add a b) c = tally_add a (tally_add b c).
Proof. unfold tally_add; simpl; f_equal; lia. Qed.

Lemma tally_add_comm (a b : Tally) : tally_add a b = tally_add b a.
Proof. unfold tally_add; f_equal; lia. Qed.

Lemma bump_by_notes_tally (c : Commit) (ns : list Note) :
  forall t,
    fst (bump_by_notes t c ns)
    = tally_add t {| majorChanges := length (filter is_breaking ns);
                     minorChanges := 0; patchChanges := 0 |}.
Proof.
  induction ns as [|n ns IH]; intros t; simpl.
  - tally_arith t.
  - unfold is_breaking at 1.
    destruct (String.eqb (title n) "BREAKING CHANGE").
    + specialize (IH (incr_major t)).
      destruct (bump_by_notes (incr_major t) c ns) as [t' log]; simpl in *.
      rewrite IH. tally_arith t.
    + apply IH.
Qed.

Lemma bump_by_notes_log (c : Commit) (ns : list Note) :
  forall t, forallb is_info (snd (bump_by_notes t c ns)) = true.
Proof.
  induction ns as [|n ns IH]; intros t; simpl; [reflexivity|].
  destruct (String.eqb (title n) "BREAKING CHANGE"); [|apply IH].
  specialize (IH (incr_major t)).
  destruct (bump_by_notes (incr_major t) c ns) as [t' log]; simpl in *. exact IH.
Qed.

Lemma bump_by_type_log (t : Tally) (c : Commit) (cAst : CAst) :
  forallb is_info (snd (bump_by_type t c cAst)) = true.
Proof.
  unfold bump_by_type.
  repeat match goal with |- context [if ?b then _ else _] => destruct b end;
    reflexivity.
Qed.

Section ClassifierFacts.

Variable parser : string -> option CAst.

Lemma scan_commit_tally (t : Tally) (c : Commit) :
  fst (scan_commit parser t c) = tally_add t (commit_delta parser c).
Proof.
  unfold scan_commit, commit_delta.
  destruct (parser (message c)) as [cAst|]; simpl.
  - destruct (bump_by_type t c cAst) as [t1 log1] eqn:Et.
    pose proof (bump_by_notes_tally c (notes cAst) t1) as Hn.
    destruct (bump_by_notes t1 c (notes cAst)) as [t2 log2]; simpl in *.
    rewrite Hn. unfold bump_by_type in Et. unfold ast_delta, breaking_notes.
    destruct (includes (major bumpTypes) (type cAst));
      [|destruct (includes (minor bumpTypes) (type cAst));
        [|destruct (includes (patch bumpTypes) (type cAst))]];
      inversion Et; subst t1; tally_arith t.
  - symmetry. apply tally_add_0_r.
Qed.

Lemma scan_commit_log (t : Tally) (c : Commit) :
  forallb is_info (snd (scan_commit parser t c)) = true.
Proof.
  unfold scan_commit.
  destruct (parser (message c)) as [cAst|]; [|reflexivity].
  pose proof (bump_by_type_log t c cAst) as H1.
  destruct (bump_by_type t c cAst) as [t1 log1].
  pose proof (bump_by_notes_log c (notes cAst) t1) as H2.
  destruct (bump_by_notes t1 c (notes cAst)) as [t2 log2]; simpl in *.
  rewrite forallb_app, H1, H2. reflexivity.
Qed.

Lemma scan_from_tally (cs : list Commit) :
  forall t, fst (scan_from parser t cs) = tally_add t (tally_sum parser cs).
Proof.
  induction cs as [|c cs IH]; intros t; simpl.
  - symmetry. apply tally_add_0_r.
  - pose proof (scan_commit_tally t c) as Hc.
    destruct (scan_commit parser t c) as [t1 log1].
    specialize (IH t1).
    destruct (scan_from parser t1 cs) as [t2 log2]; simpl in *.
    rewrite IH, Hc. apply tally_add_assoc.
Qed.

Lemma scan_from_log (cs : list Commit) :
  forall t, forallb is_info (snd (scan_from parser t cs)) = true.
Proof.
  induction cs as [|c cs IH]; intros t; simpl; [reflexivity|].
  pose proof (scan_commit_log t c) as Hc.
  destruct (scan_commit parser t c) as [t1 log1].
  specialize (IH t1).
  destruct (scan_from parser t1 cs) as [t2 log2]; simpl in *.
  rewrite forallb_app, Hc, IH. reflexivity.
Qed.

(** The lines an iteration logs do not depend on the counters. *)
Lemma scan_commit_narration (t : Tally) (c : Commit) :
  snd (scan_commit parser t c) = snd (scan_commit parser tally0 c).
Proof.
  unfold scan_commit. destruct (parser (message c)) as [cAst|]; [|reflexivity].
  assert (Hty : snd (bump_by_type t c cAst) = snd (bump_by_type tally0 c cAst)).
  { unfold bump_by_type.
    repeat match goal with |- context [if ?b then _ else _] => destruct b end;
      reflexivity. }
  assert (Hns : forall ns a b, snd (bump_by_notes a c ns) = snd (bump_by_notes b c ns)).
  { induction ns as [|n ns IH]; intros a b; simpl; [reflexivity|].
    destruct (String.eqb (title n) "BREAKING CHANGE"); [|apply IH].
    specialize (IH (incr_major a) (incr_major b)).
    destruct (bump_by_notes (incr_major a) c ns), (bump_by_notes (incr_major b) c ns).
    simpl in *. now rewrite IH. }
  destruct (bump_by_type t c cAst) as [t1 l1], (bump_by_type tally0 c cAst) as [t2 l2].
  simpl in Hty. subst l2. specialize (Hns (notes cAst) t1 t2).
  destruct (bump_by_notes t1 c (notes cAst)), (bump_by_notes t2 c (notes cAst)).
  simpl in *. now rewrite Hns.
Qed.

Lemma scan_from_narration (cs : list Commit) :
  forall t,
    snd (scan_from parser t cs)
    = flat_map (fun c => snd (scan_commit parser tally0 c)) cs.
Proof.
  induction cs as [|c cs IH]; intros t; simpl; [reflexivity|].
  rewrite <- (scan_commit_narration t c).
  destruct (scan_commit parser t c) as [t1 log1].
  specialize (IH t1). destruct (scan_from parser t1 cs) as [t2 log2].
  simpl in *. now rewrite IH.
Qed.

Lemma scan_commits_tally (cs : list Commit) :
  fst (scan_commits parser cs) = tally_sum parser cs.
Proof.
  unfold scan_commits. rewrite scan_from_tally.
  rewrite tally_add_comm. apply tally_add_0_r.
Qed.

Lemma tally_sum_app (xs ys : list Commit) :
  tally_sum parser (xs ++ ys) = tally_add (tally_sum parser xs) (tally_sum parser ys).
Proof.
  induction xs as [|x xs IH]; simpl.
  - rewrite tally_add_comm. symmetry. apply tally_add_0_r.
  - rewrite IH. symmetry. apply tally_add_assoc.
Qed.

Lemma tally_sum_perm (xs ys : list Commit) :
  Permutation xs ys -> tally_sum parser xs = tally_sum parser ys.
Proof.
  induction 1 as [|x xs ys _ IH|x y xs|xs ys zs _ IH1 _ IH2]; simpl.
  - reflexivity.
  - now rewrite IH.
  - rewrite <- !tally_add_assoc.
    now rewrite (tally_add_comm (commit_delta parser y)).
  - now rewrite IH1.
Qed.

(** Each counter of the sum is zero exactly when it is zero for every commit. *)
Lemma tally_sum_major_0 (cs : list Commit) :
  majorChanges (tally_sum parser cs) = 0
  <-> forall c, In c cs -> majorChanges (commit_delta parser c) = 0.
Proof. counter_zero_iff cs. Qed.

Lemma tally_sum_minor_0 (cs : list Commit) :
  minorChanges (tally_sum parser cs) = 0
  <-> forall c, In c cs -> minorChanges (commit_delta parser c) = 0.
Proof. counter_zero_iff cs. Qed.

Lemma tally_sum_patch_0 (cs : list Commit) :
  patchChanges (tally_sum parser cs) = 0
  <-> forall c, In c cs -> patchChanges (commit_delta parser c) = 0.
Proof. counter_zero_iff cs. Qed.

Lemma resolve_bump_none (t : Tally) :
  resolve_bump t = None
  <-> majorChanges t = 0 /\ minorChanges t = 0 /\ patchChanges t = 0.
Proof.
  unfold resolve_bump.
  destruct (Nat.ltb_spec 0 (majorChanges t));
    destruct (Nat.ltb_spec 0 (minorChanges t));
    destruct (Nat.ltb_spec 0 (patchChanges t));
    split; try discriminate; try lia; reflexivity.
Qed.

End ClassifierFacts.

(** ** The pagination loop, one request at a time *)

Section PaginationFacts.

Variable compareCommitsWithBasehead : string -> nat -> nat -> CompareResponse.
Variable branch : string.
Variable latestTag : Tag.

Let est := offset_estimate compareCommitsWithBasehead branch latestTag.
Let total := page_total compareCommitsWithBasehead branch latestTag.
Let page := page_commits compareCommitsWithBasehead branch latestTag.
Let loop := fetch_loop compareCommitsWithBasehead branch latestTag.

Lemma fetch_loop_S (fuel k : nat) (acc : list Commit) :
  loop (S fuel) k acc
  = if est (S k) <? total (S k)
    then loop fuel (S k) (acc ++ page (S k))
    else Some (acc ++ page (S k), S k).
Proof. reflexivity. Qed.

Lemma seq_S_sub (k n : nat) :
  k < n -> seq (S k) (n - k) = S k :: seq (S (S k)) (n - S k).
Proof.
  intros H. replace (n - k) with (S (n - S k)) by lia. reflexivity.
Qed.

(** What a returning loop has done. *)
Lemma fetch_loop_inv (fuel : nat) :
  forall k acc cs n,
    loop fuel k acc = Some (cs, n) ->
    k < n /\ n <= k + fuel /\
    cs = acc ++ flat_map page (seq (S k) (n - k)) /\
    (forall p, k < p < n -> est p < total p) /\
    total n <= est n.
Proof.
  induction fuel as [|fuel IH]; intros k acc cs n H.
  - discriminate H.
  - rewrite fetch_loop_S in H.
    destruct (Nat.ltb_spec (est (S k)) (total (S k))) as [Hlt|Hge].
    + apply IH in H. destruct H as (Hk & Hn & Hcs & Hbefore & Hstop).
      repeat split; try lia.
      * rewrite Hcs, (seq_S_sub k n) by lia. simpl.
        now rewrite <- app_assoc.
      * intros p Hp. destruct (Nat.eq_dec p (S k)) as [->|Hne]; [exact Hlt|].
        apply Hbefore. lia.
    + inversion H; subst. repeat split; try lia.
      replace (S k - k) with 1 by lia. simpl. now rewrite app_nil_r.
Qed.

(** Enough fuel reaches the first page at which the test fails. *)
Lemma fetch_loop_reaches (fuel : nat) :
  forall k acc n,
    k < n -> n <= k + fuel ->
    (forall p, k < p < n -> est p < total p) ->
    total n <= est n ->
    loop fuel k acc = Some (acc ++ flat_map page (seq (S k) (n - k)), n).
Proof.
  induction fuel as [|fuel IH]; intros k acc n Hk Hn Hbefore Hstop.
  - lia.
  - rewrite fetch_loop_S.
    destruct (Nat.eq_dec n (S k)) as [->|Hne].
    + destruct (Nat.ltb_spec (est (S k)) (total (S k))) as [Hlt|_]; [lia|].
      replace (S k - k) with 1 by lia. simpl. now rewrite app_nil_r.
    + destruct (Nat.ltb_spec (est (S k)) (total (S k))) as [_|Hge].
      * rewrite (IH (S k) (acc ++ page (S k)) n) by (try lia; intros; apply Hbefore; lia).
        rewrite (seq_S_sub k n) by lia. simpl. now rewrite <- app_assoc.
      * specialize (Hbefore (S k)). lia.
Qed.

Lemma fetch_loop_last_page (fuel n : nat) :
  last_page compareCommitsWithBasehead branch latestTag n ->
  n <= fuel ->
  loop fuel 0 [] = Some (fetched compareCommitsWithBasehead branch latestTag n, n).
Proof.
  intros (H1 & Hbefore & Hstop) Hfuel.
  rewrite (fetch_loop_reaches fuel 0 [] n);
    [simpl; now rewrite Nat.sub_0_r | lia | lia | intros p Hp; apply Hbefore; lia | exact Hstop].
Qed.

Lemma fetch_loop_returns (fuel n : nat) (cs : list Commit) :
  loop fuel 0 [] = Some (cs, n) ->
  last_page compareCommitsWithBasehead branch latestTag n /\
  n <= fuel /\
  cs = fetched compareCommitsWithBasehead branch latestTag n.
Proof.
  intros H. apply fetch_loop_inv in H.
  destruct H as (Hk & Hn & Hcs & Hbefore & Hstop).
  split; [|split].
  - split; [lia | split; [intros p Hp; apply Hbefore; lia | exact Hstop]].
  - lia.
  - rewrite Hcs. simpl. now rewrite Nat.sub_0_r.
Qed.

(** The cumulative count against the estimate of line 67. *)
Lemma fetched_length_le (n : nat) :
  (forall p, 1 <= p <= n -> length (page p) <= 100) ->
  length (fetched compareCommitsWithBasehead branch latestTag n) <= n * 100.
Proof.
  unfold fetched. induction n as [|n IH]; intros Hp; [simpl; lia|].
  rewrite seq_S, flat_map_app, length_app. simpl. rewrite app_nil_r.
  specialize (Hp (S n)) as Hlast. fold page.
  assert (length (flat_map page (seq 1 n)) <= n * 100)
    by (apply IH; intros; apply Hp; lia).
  lia.
Qed.

Lemma fetched_length_full (n : nat) :
  (forall p, 1 <= p <= n -> length (page p) = 100) ->
  length (fetched compareCommitsWithBasehead branch latestTag n) = n * 100.
Proof.
  unfold fetched. induction n as [|n IH]; intros Hp; [reflexivity|].
  rewrite seq_S, flat_map_app, length_app. simpl. rewrite app_nil_r.
  specialize (Hp (S n)) as Hlast. fold page.
  assert (length (flat_map page (seq 1 n)) = n * 100)
    by (apply IH; intros; apply Hp; lia).
  lia.
Qed.

Lemma fetched_S (n : nat) :
  fetched compareCommitsWithBasehead branch latestTag (S n)
  = fetched compareCommitsWithBasehead branch latestTag n ++ page (S n).
Proof.
  unfold fetched. rewrite seq_S, flat_map_app. simpl. now rewrite app_nil_r.
Qed.

End PaginationFacts.

(** ** Properties of the classifier *)

Lemma includes_major_false (ty : string) : includes (major bumpTypes) ty = false.
Proof. reflexivity. Qed.

Lemma includes_minor_iff (ty : string) :
  includes (minor bumpTypes) ty = true <-> ty = "feat" \/ ty = "feature".
Proof.
  unfold includes; simpl. rewrite !orb_true_iff, !String.eqb_eq.
  intuition discriminate.
Qed.

Lemma includes_patch_iff (ty : string) :
  includes (patch bumpTypes) ty = true
  <-> In ty ["fix"; "bugfix"; "perf"; "refactor"; "test"; "tests"].
Proof.
  unfold includes. rewrite existsb_exists. split.
  - intros (x & Hin & Heq). apply String.eqb_eq in Heq. now subst.
  - intros Hin. exists ty. split; [exact Hin | apply String.eqb_refl].
Qed.

Lemma is_breaking_iff (n : Note) :
  is_breaking n = true <-> title n = "BREAKING CHANGE".
Proof. unfold is_breaking. apply String.eqb_eq. Qed.

Section ClassifierProperties.

Variable parser : string -> option CAst.

Lemma tally_sum_major_ge (c : Commit) (cs : list Commit) :
  In c cs ->
  majorChanges (commit_delta parser c) <= majorChanges (tally_sum parser cs).
Proof.
  induction cs as [|x cs IH]; simpl; [intros []|].
  intros [->|Hin]; [lia|]. specialize (IH Hin). lia.
Qed.

(** C1: for every list of commits the decision follows the strict priority
    major, minor, patch, none over the three counters the scan produced;
    and one commit whose type is in the major list, or that has a
    BREAKING CHANGE note, makes the decision major whatever else the list
    holds. *)
Theorem C1_decision_by_priority (cs : list Commit) :
  let t := fst (scan_commits parser cs) in
  (0 < majorChanges t -> decision parser cs = Some BumpMajor) /\
  (majorChanges t = 0 -> 0 < minorChanges t -> decision parser cs = Some BumpMinor) /\
  (majorChanges t = 0 -> minorChanges t = 0 -> 0 < patchChanges t ->
   decision parser cs = Some BumpPatch) /\
  (majorChanges t = 0 -> minorChanges t = 0 -> patchChanges t = 0 ->
   decision parser cs = None) /\
  (forall c cAst,
      In c cs -> parser (message c) = Some cAst ->
      includes (major bumpTypes) (type cAst) = true \/ 1 <= breaking_notes cAst ->
      decision parser cs = Some BumpMajor).
Proof.
  intros t. unfold decision. fold t. unfold resolve_bump.
  repeat split.
  - intros H. apply Nat.ltb_lt in H. now rewrite H.
  - intros H0 H. apply Nat.ltb_lt in H. now rewrite H0, H.
  - intros H0 H1 H. apply Nat.ltb_lt in H. now rewrite H0, H1, H.
  - intros H0 H1 H2. now rewrite H0, H1, H2.
  - intros c cAst Hin Hparse Hmajor.
    assert (Hpos : 0 < majorChanges t).
    { subst t. rewrite scan_commits_tally.
      pose proof (tally_sum_major_ge c cs Hin) as Hge.
      unfold commit_delta in Hge. rewrite Hparse in Hge.
      unfold ast_delta in Hge; simpl in Hge.
      destruct Hmajor as [Hty|Hnote]; [discriminate Hty | lia]. }
    apply Nat.ltb_lt in Hpos. now rewrite Hpos.
Qed.

(** C5: for a commit that parses, the major counter rises by the number of
    notes whose title is exactly BREAKING CHANGE, whatever the type; the
    type-based counter rises as well, so a commit of a minor (or patch) type
    with such a note increments both the minor (or patch) counter and the
    major counter. *)
Theorem C5_breaking_notes_count_as_major (t : Tally) (c : Commit) (cAst : CAst) :
  parser (message c) = Some cAst ->
  let t' := fst (scan_commit parser t c) in
  majorChanges t' = majorChanges t + length (filter is_breaking (notes cAst)) /\
  (forall n, is_breaking n = true <-> title n = "BREAKING CHANGE") /\
  (includes (minor bumpTypes) (type cAst) = true ->
   minorChanges t' = S (minorChanges t) /\ patchChanges t' = patchChanges t) /\
  (includes (minor bumpTypes) (type cAst) = false ->
   includes (patch bumpTypes) (type cAst) = true ->
   patchChanges t' = S (patchChanges t) /\ minorChanges t' = minorChanges t) /\
  (includes (minor bumpTypes) (type cAst) = true \/
   includes (patch bumpTypes) (type cAst) = true ->
   (exists n, In n (notes cAst) /\ title n = "BREAKING CHANGE") ->
   majorChanges t < majorChanges t' /\
   minorChanges t' + patchChanges t' = S (minorChanges t + patchChanges t)).
Proof.
  intros Hparse t'.
  assert (Ht' : t' = tally_add t (ast_delta cAst)).
  { subst t'. rewrite scan_commit_tally. unfold commit_delta. now rewrite Hparse. }
  assert (Hbreak : (exists n, In n (notes cAst) /\ title n = "BREAKING CHANGE") ->
                   1 <= length (filter is_breaking (notes cAst))).
  { intros (n & Hin & Hb). apply is_breaking_iff in Hb.
    assert (Hf : In n (filter is_breaking (notes cAst))) by (apply filter_In; auto).
    destruct (filter is_breaking (notes cAst)); [destruct Hf | simpl; lia]. }
  rewrite Ht'. unfold ast_delta, breaking_notes, tally_add.
  cbn [majorChanges minorChanges patchChanges]. rewrite includes_major_false.
  split; [reflexivity|]. split; [exact is_breaking_iff|].
  split; [intros ->; lia|].
  split; [intros -> ->; lia|].
  intros Hty Hnote. specialize (Hbreak Hnote).
  destruct (includes (minor bumpTypes) (type cAst));
    [lia | destruct (includes (patch bumpTypes) (type cAst)); [lia|]].
  destruct Hty; discriminate.
Qed.

(** C6: the type table is exactly feat and feature for the minor counter,
    and fix, bugfix, perf, refactor, test and tests for the patch counter;
    no type is in the major list.  The lookup of lines 84-95 adds one to
    the minor counter for the first two and one to the patch counter for
    the other six, and leaves the two other counters as they are.  For a
    parsed commit whose type is in none of the lists, the lookup leaves the
    three counters as they are and logs a SKIP line, which differs from the
    INVALID line of a parse failure; over the whole iteration such a commit
    changes no counter but the major one, by its number of BREAKING CHANGE
    notes. *)
Theorem C6_type_table (t : Tally) (c : Commit) (cAst : CAst) :
  (includes (minor bumpTypes) (type cAst) = true
   <-> type cAst = "feat" \/ type cAst = "feature") /\
  (includes (patch bumpTypes) (type cAst) = true
   <-> In (type cAst) ["fix"; "bugfix"; "perf"; "refactor"; "test"; "tests"]) /\
  includes (major bumpTypes) (type cAst) = false /\
  (type cAst = "feat" \/ type cAst = "feature" ->
   fst (bump_by_type t c cAst)
   = {| majorChanges := majorChanges t;
        minorChanges := S (minorChanges t);
        patchChanges := patchChanges t |}) /\
  (In (type cAst) ["fix"; "bugfix"; "perf"; "refactor"; "test"; "tests"] ->
   fst (bump_by_type t c cAst)
   = {| majorChanges := majorChanges t;
        minorChanges := minorChanges t;
        patchChanges := S (patchChanges t) |}) /\
  (includes (major bumpTypes) (type cAst) = false ->
   includes (minor bumpTypes) (type cAst) = false ->
   includes (patch bumpTypes) (type cAst) = false ->
   bump_by_type t c cAst
   = (t, [core_info ("[SKIP] Commit " ++ sha c ++ " of type " ++ type cAst
                     ++ " will not cause any version bump.")]) /\
   (parser (message c) = Some cAst ->
    fst (scan_commit parser t c)
    = {| majorChanges := majorChanges t + breaking_notes cAst;
         minorChanges := minorChanges t;
         patchChanges := patchChanges t |})) /\
  (parser (message c) = None ->
   scan_commit parser t c
   = (t, [core_info ("[INVALID] Skipping commit " ++ sha c
                     ++ " as it doesn't follow conventional commit format.")])).
Proof.
  split; [apply includes_minor_iff|].
  split; [apply includes_patch_iff|].
  split; [reflexivity|].
  split; [|split; [|split]].
  - intros H. apply includes_minor_iff in H.
    unfold bump_by_type. now rewrite includes_major_false, H.
  - intros H. apply includes_patch_iff in H. unfold bump_by_type.
    rewrite includes_major_false, H.
    destruct (includes (minor bumpTypes) (type cAst)) eqn:Hm; [|reflexivity].
    apply includes_minor_iff in Hm. apply includes_patch_iff in H.
    simpl in H. destruct Hm as [Hm|Hm]; rewrite Hm in H;
      repeat (destruct H as [H|H]; [discriminate H|]); destruct H.
  - intros Hmaj Hmin Hpat. split.
    + unfold bump_by_type. now rewrite Hmaj, Hmin, Hpat.
    + intros Hparse. rewrite scan_commit_tally. unfold commit_delta.
      rewrite Hparse. unfold ast_delta, tally_add.
      cbn [majorChanges minorChanges patchChanges].
      rewrite Hmaj, Hmin, Hpat. f_equal; lia.
  - intros Hparse. unfold scan_commit. now rewrite Hparse.
Qed.

(** C7: a commit whose message the parser rejects changes none of the three
    counters, whatever the message is; the iteration logs one INVALID line
    and the scan goes on with the commits that follow, so the counters and
    the decision are those of the list without that commit. *)
Theorem C7_parse_failure_is_skipped (c : Commit) :
  parser (message c) = None ->
  (forall t, fst (scan_commit parser t c) = t) /\
  (forall t rest,
      scan_from parser t (c :: rest)
      = (fst (scan_from parser t rest),
         core_info ("[INVALID] Skipping commit " ++ sha c
                    ++ " as it doesn't follow conventional commit format.")
         :: snd (scan_from parser t rest))) /\
  (forall before after,
      fst (scan_commits parser (before ++ c :: after))
      = fst (scan_commits parser (before ++ after)) /\
      decision parser (before ++ c :: after) = decision parser (before ++ after)).
Proof.
  intros Hparse.
  assert (Hstep : forall t, scan_commit parser t c
                            = (t, [core_info ("[INVALID] Skipping commit " ++ sha c
                                   ++ " as it doesn't follow conventional commit format.")])).
  { intros t. unfold scan_commit. now rewrite Hparse. }
  assert (Hsum : forall before after,
             fst (scan_commits parser (before ++ c :: after))
             = fst (scan_commits parser (before ++ after))).
  { intros before after. rewrite !scan_commits_tally, !tally_sum_app. simpl.
    unfold commit_delta at 1. rewrite Hparse.
    now rewrite (tally_add_comm tally0), tally_add_0_r. }
  split; [intros t; now rewrite Hstep|].
  split.
  - intros t rest. simpl. rewrite Hstep.
    now destruct (scan_from parser t rest).
  - intros before after. split; [apply Hsum|].
    unfold decision. now rewrite Hsum.
Qed.

(** C9: the counters and the decision do not depend on the order of the
    commits: two lists that are permutations of each other give the same
    three counters and the same decision, and their logs are permutations
    of each other. *)
Theorem C9_order_independent (cs cs' : list Commit) :
  Permutation cs cs' ->
  fst (scan_commits parser cs) = fst (scan_commits parser cs') /\
  decision parser cs = decision parser cs' /\
  Permutation (snd (scan_commits parser cs)) (snd (scan_commits parser cs')).
Proof.
  intros Hperm.
  assert (Ht : fst (scan_commits parser cs) = fst (scan_commits parser cs'))
    by (rewrite !scan_commits_tally; now apply tally_sum_perm).
  split; [exact Ht|]. split; [unfold decision; now rewrite Ht|].
  unfold scan_commits. rewrite !scan_from_narration.
  now apply Permutation_flat_map.
Qed.

End ClassifierProperties.

(** ** Properties of the pagination loop *)

Section PaginationProperties.

Variable compareCommitsWithBasehead : string -> nat -> nat -> CompareResponse.
Variable branch : string.
Variable latestTag : Tag.

Let est := offset_estimate compareCommitsWithBasehead branch latestTag.
Let total := page_total compareCommitsWithBasehead branch latestTag.
Let page := page_commits compareCommitsWithBasehead branch latestTag.
Let upto := fetched compareCommitsWithBasehead branch latestTag.
Let loop := fetch_loop compareCommitsWithBasehead branch latestTag.

Lemma estimate_ge_cumulative (n : nat) :
  1 <= n ->
  (forall p, 1 <= p < n -> length (page p) <= 100) ->
  length (upto n) <= est n.
Proof.
  intros Hn Hle. destruct n as [|m]; [lia|].
  unfold upto. rewrite fetched_S, length_app.
  pose proof (fetched_length_le compareCommitsWithBasehead branch latestTag m) as Hm.
  unfold est, offset_estimate. fold page.
  assert (length (fetched compareCommitsWithBasehead branch latestTag m) <= m * 100)
    by (apply Hm; intros; apply Hle; lia).
  lia.
Qed.

Lemma estimate_eq_cumulative (n : nat) :
  1 <= n ->
  (forall p, 1 <= p < n -> length (page p) = 100) ->
  length (upto n) = est n.
Proof.
  intros Hn Hfull. destruct n as [|m]; [lia|].
  unfold upto. rewrite fetched_S, length_app.
  pose proof (fetched_length_full compareCommitsWithBasehead branch latestTag m) as Hm.
  unfold est, offset_estimate. fold page.
  assert (length (fetched compareCommitsWithBasehead branch latestTag m) = m * 100)
    by (apply Hm; intros; apply Hfull; lia).
  lia.
Qed.

(** With totals bounded by [T], the loop is over within [T / 100 + 1]
    requests: the estimate of page [p] is at least [(p - 1) * 100]. *)
Lemma fetch_loop_terminates (T fuel : nat) :
  (forall p, total p <= T) ->
  forall k acc,
    T <= (k + fuel) * 100 ->
    exists cs n, loop (S fuel) k acc = Some (cs, n).
Proof.
  unfold loop, est, total. intros Hbound.
  induction fuel as [|fuel IH]; intros k acc HT; rewrite fetch_loop_S.
  - destruct (Nat.ltb_spec
                (offset_estimate compareCommitsWithBasehead branch latestTag (S k))
                (page_total compareCommitsWithBasehead branch latestTag (S k)))
      as [Hlt|_]; [|eauto].
    specialize (Hbound (S k)). unfold offset_estimate in Hlt. lia.
  - destruct (offset_estimate compareCommitsWithBasehead branch latestTag (S k)
              <? page_total compareCommitsWithBasehead branch latestTag (S k));
      [|eauto].
    apply IH. lia.
Qed.

(** C2, as the code has it: the loop requests pages 1, 2, ... and stops at
    the first page [n] whose offset estimate [(n - 1) * 100 + length of page
    n] reaches the total reported with that page, returning the commits of
    pages [1..n]; it requests nothing after [n].  When no page has more than
    100 commits, a further page is requested only while the cumulative count
    is below the reported total.  When every page before the last is full
    (100 commits) the estimate is the cumulative count, and the loop stops
    exactly when the cumulative count reaches the reported total.  With
    totals bounded by [T] the loop returns within [T / 100 + 1] requests. *)
Theorem C2_pagination_stops_on_offset_estimate :
  (forall fuel cs n,
      loop fuel 0 [] = Some (cs, n)
      <-> last_page compareCommitsWithBasehead branch latestTag n /\
          n <= fuel /\ cs = upto n) /\
  (forall fuel cs n,
      loop fuel 0 [] = Some (cs, n) ->
      (forall p, 1 <= p <= n -> length (page p) <= 100) ->
      forall p, 1 <= p < n -> length (upto p) < total p) /\
  (forall fuel cs n,
      loop fuel 0 [] = Some (cs, n) ->
      (forall p, 1 <= p < n -> length (page p) = 100) ->
      total n <= length cs /\
      forall p, 1 <= p < n -> length (upto p) < total p) /\
  (forall T fuel,
      (forall p, total p <= T) -> T <= fuel * 100 ->
      exists cs n, loop (S fuel) 0 [] = Some (cs, n)).
Proof.
  split; [|split; [|split]].
  - intros fuel cs n. split.
    + apply fetch_loop_returns.
    + intros (Hlast & Hfuel & ->). now apply fetch_loop_last_page.
  - intros fuel cs n Hret Hle p Hp.
    apply fetch_loop_returns in Hret. destruct Hret as ((_ & Hbefore & _) & _ & _).
    specialize (Hbefore p Hp). fold est total in Hbefore.
    assert (length (upto p) <= est p)
      by (apply estimate_ge_cumulative; [lia | intros; apply Hle; lia]).
    lia.
  - intros fuel cs n Hret Hfull.
    apply fetch_loop_returns in Hret.
    destruct Hret as ((H1 & Hbefore & Hstop) & _ & ->).
    fold est total in Hbefore, Hstop. fold upto. split.
    + rewrite (estimate_eq_cumulative n H1 Hfull). exact Hstop.
    + intros p Hp. specialize (Hbefore p Hp).
      rewrite (estimate_eq_cumulative p); [exact Hbefore | lia |].
      intros q Hq. apply Hfull. lia.
  - intros T fuel Hbound HT.
    apply (fetch_loop_terminates T fuel Hbound 0 []). simpl. exact HT.
Qed.

End PaginationProperties.

(** ** Properties of the whole run *)

Lemma failures_app (a b : list Event) : failures (a ++ b) = failures a ++ failures b.
Proof. apply flat_map_app. Qed.

Lemma exports_app (a b : list Event) : exports (a ++ b) = exports a ++ exports b.
Proof. apply flat_map_app. Qed.

Lemma info_only_failures (l : list Event) :
  forallb is_info l = true -> failures l = [].
Proof.
  induction l as [|e l IH]; simpl; [reflexivity|].
  destruct e; simpl; try discriminate. exact IH.
Qed.

Lemma info_only_exports (l : list Event) :
  forallb is_info l = true -> exports l = [].
Proof.
  induction l as [|e l IH]; simpl; [reflexivity|].
  destruct e; simpl; try discriminate. exact IH.
Qed.

Section RunProperties.

Variable parser : string -> option CAst.
Variable semver_inc : string -> string -> JsVal.
Variable compareCommitsWithBasehead : string -> nat -> nat -> CompareResponse.
Variable branch : string.
Variable nodes : list Tag.

Let run := main parser semver_inc compareCommitsWithBasehead branch nodes.
Let range := fetched compareCommitsWithBasehead branch.
Let stops := last_page compareCommitsWithBasehead branch.
Let narration (cs : list Commit) := snd (scan_commits parser cs).

(** The events of lines 117-126. *)
Let closing (latestTag : Tag) (bump : Bump) : list Event :=
  [core_info (nl ++ ">>> Will bump version " ++ name latestTag ++ " using "
              ++ toUpperCase (bump_name bump) ++ nl);
   core_info ("Next version is v"
              ++ template (semver_inc (name latestTag) (bump_name bump)));
   core_exportVariable "next"
     (JsString ("v" ++ template (semver_inc (name latestTag) (bump_name bump))));
   core_exportVariable "nextStrict" (semver_inc (name latestTag) (bump_name bump))].

Lemma narration_info_only (cs : list Commit) : forallb is_info (narration cs) = true.
Proof. apply scan_from_log. Qed.

Lemma bump_version_none (latestTag : Tag) (cs : list Commit) :
  decision parser cs = None ->
  bump_version parser semver_inc latestTag cs
  = narration cs ++ [core_setFailed msg_no_bump].
Proof.
  unfold decision, bump_version, narration.
  destruct (scan_commits parser cs) as [t log]; simpl. now intros ->.
Qed.

Lemma bump_version_some (latestTag : Tag) (cs : list Commit) (bump : Bump) :
  decision parser cs = Some bump ->
  bump_version parser semver_inc latestTag cs
  = narration cs ++
    [core_info (nl ++ ">>> Will bump version " ++ name latestTag ++ " using "
                ++ toUpperCase (bump_name bump) ++ nl);
     core_info ("Next version is v"
                ++ template (semver_inc (name latestTag) (bump_name bump)));
     core_exportVariable "next"
       (JsString ("v" ++ template (semver_inc (name latestTag) (bump_name bump))));
     core_exportVariable "nextStrict" (semver_inc (name latestTag) (bump_name bump))].
Proof.
  unfold decision, bump_version, narration.
  destruct (scan_commits parser cs) as [t log]; simpl. now intros ->.
Qed.

Lemma decision_nil : decision parser [] = None.
Proof. reflexivity. Qed.

(** [main] once the pagination is known to stop at page [n]. *)
Lemma main_last_page (latestTag : Tag) (fuel n : nat) :
  nth_error nodes 0 = Some latestTag ->
  stops latestTag n -> n <= fuel ->
  run fuel
  = Some (core_info ("Comparing against latest tag: " ++ name latestTag)
          :: (if length (range latestTag n) <? 1
              then [core_setFailed msg_no_commits]
              else bump_version parser semver_inc latestTag (range latestTag n))).
Proof.
  intros Htag Hstop Hfuel. unfold run, main. rewrite Htag.
  now rewrite (fetch_loop_last_page _ _ _ fuel n Hstop Hfuel).
Qed.

Lemma length_ltb_1 {A : Type} (l : list A) : (length l <? 1) = true <-> l = [].
Proof.
  destruct l; simpl; split; intros H; try reflexivity; discriminate.
Qed.

(** Whether a commit adds nothing to any counter. *)
Lemma commit_delta_zero (c : Commit) :
  majorChanges (commit_delta parser c) = 0 /\
  minorChanges (commit_delta parser c) = 0 /\
  patchChanges (commit_delta parser c) = 0
  <-> parser (message c) = None \/
      exists cAst, parser (message c) = Some cAst /\
                   includes (minor bumpTypes) (type cAst) = false /\
                   includes (patch bumpTypes) (type cAst) = false /\
                   breaking_notes cAst = 0.
Proof.
  unfold commit_delta. destruct (parser (message c)) as [cAst|].
  - unfold ast_delta. cbn [majorChanges minorChanges patchChanges].
    rewrite includes_major_false. split.
    + intros (Hma & Hmi & Hpa). right. exists cAst.
      destruct (includes (minor bumpTypes) (type cAst)); [discriminate|].
      destruct (includes (patch bumpTypes) (type cAst)); [discriminate|].
      repeat split. lia.
    + intros [Hnone|(a & Ha & Hmi & Hpa & Hb)]; [discriminate|].
      inversion Ha; subst a. rewrite Hmi, Hpa, Hb. repeat split.
  - split; [now left | intros _; repeat split].
Qed.

(** C3: the decision is none exactly when every commit either fails to
    parse or has a type outside the minor and patch lists, and no commit
    carries a BREAKING CHANGE note; equivalently, exactly when the three
    counters are zero.  On such a list lines 107-116 end with the failure
    "No commit resulted in a version bump since last release!", and so does
    every run that reaches them (a tag and a non-empty range), after log
    lines only. *)
Theorem C3_none_iff_nothing_counts (cs : list Commit) :
  let t := fst (scan_commits parser cs) in
  (decision parser cs = None
   <-> (forall c, In c cs ->
          parser (message c) = None \/
          exists cAst, parser (message c) = Some cAst /\
                       includes (minor bumpTypes) (type cAst) = false /\
                       includes (patch bumpTypes) (type cAst) = false) /\
       (forall c, In c cs -> ~ carries_breaking parser c)) /\
  (decision parser cs = None
   <-> majorChanges t = 0 /\ minorChanges t = 0 /\ patchChanges t = 0) /\
  (forall latestTag,
      decision parser cs = None ->
      bump_version parser semver_inc latestTag cs
      = narration cs ++ [core_setFailed msg_no_bump]) /\
  (forall latestTag fuel n,
      nth_error nodes 0 = Some latestTag ->
      stops latestTag n -> n <= fuel ->
      range latestTag n = cs -> cs <> [] ->
      decision parser cs = None ->
      run fuel
      = Some (core_info ("Comparing against latest tag: " ++ name latestTag)
              :: narration cs ++ [core_setFailed msg_no_bump]) /\
      forallb is_info (narration cs) = true).
Proof.
  intros t.
  assert (Hzero : decision parser cs = None
                  <-> majorChanges t = 0 /\ minorChanges t = 0 /\ patchChanges t = 0)
    by apply resolve_bump_none.
  split; [|split; [exact Hzero|split; [intros; now apply bump_version_none|]]].
  - rewrite Hzero. subst t. rewrite scan_commits_tally.
    rewrite tally_sum_major_0, tally_sum_minor_0, tally_sum_patch_0. split.
    + intros (Hma & Hmi & Hpa). split.
      * intros c Hin.
        destruct (proj1 (commit_delta_zero c)) as [Hn|(a & Ha & Hm & Hp & _)];
          [auto | now left | right; eauto].
      * intros c Hin (a & Ha & Hb).
        destruct (proj1 (commit_delta_zero c)) as [Hn|(a' & Ha' & _ & _ & Hz)];
          [auto | congruence |].
        rewrite Ha in Ha'. inversion Ha'; subst a'. lia.
    + intros (Hty & Hnote).
      assert (Hall : forall c, In c cs ->
                majorChanges (commit_delta parser c) = 0 /\
                minorChanges (commit_delta parser c) = 0 /\
                patchChanges (commit_delta parser c) = 0).
      { intros c Hin. apply commit_delta_zero.
        destruct (Hty c Hin) as [Hn|(a & Ha & Hm & Hp)]; [now left|].
        right. exists a. repeat split; auto.
        destruct (breaking_notes a) eqn:Hb; [reflexivity|].
        exfalso. apply (Hnote c Hin). exists a. split; [exact Ha | lia]. }
      repeat split; intros c Hin; apply (Hall c Hin).
  - intros latestTag fuel n Htag Hstop Hfuel Hrange Hne Hnone.
    split; [|apply narration_info_only].
    rewrite (main_last_page latestTag fuel n Htag Hstop Hfuel), Hrange.
    destruct (length cs <? 1) eqn:Hlen.
    + apply length_ltb_1 in Hlen. contradiction.
    + now rewrite (bump_version_none latestTag cs Hnone).
Qed.

Lemma main_success (latestTag : Tag) (fuel n : nat) (bump : Bump) :
  nth_error nodes 0 = Some latestTag ->
  stops latestTag n -> n <= fuel ->
  decision parser (range latestTag n) = Some bump ->
  run fuel
  = Some (core_info ("Comparing against latest tag: " ++ name latestTag)
          :: narration (range latestTag n) ++ closing latestTag bump).
Proof.
  intros Htag Hstop Hfuel Hdec.
  rewrite (main_last_page latestTag fuel n Htag Hstop Hfuel).
  destruct (length (range latestTag n) <? 1) eqn:Hlen.
  - apply length_ltb_1 in Hlen. rewrite Hlen in Hdec. discriminate Hdec.
  - now rewrite (bump_version_some latestTag _ bump Hdec).
Qed.

Lemma main_success_exports (latestTag : Tag) (fuel n : nat) (bump : Bump) :
  nth_error nodes 0 = Some latestTag ->
  stops latestTag n -> n <= fuel ->
  decision parser (range latestTag n) = Some bump ->
  option_map exports (run fuel)
  = Some [("next",
           JsString ("v" ++ template (semver_inc (name latestTag) (bump_name bump))));
          ("nextStrict", semver_inc (name latestTag) (bump_name bump))]
  /\ option_map failures (run fuel) = Some [].
Proof.
  intros Htag Hstop Hfuel Hdec.
  rewrite (main_success latestTag fuel n bump Htag Hstop Hfuel Hdec).
  cbn [option_map]. rewrite app_comm_cons, exports_app, failures_app.
  assert (Hlog : forallb is_info
                   (core_info ("Comparing against latest tag: " ++ name latestTag)
                    :: narration (range latestTag n)) = true)
    by (simpl; apply narration_info_only).
  now rewrite (info_only_exports _ Hlog), (info_only_failures _ Hlog).
Qed.

(** C4, as the code has it: the tag name goes to the version incrementer as
    it is, [nextStrict] is the incrementer's answer, and [next] is the
    letter v followed by that answer as text; the prefix of [next] is this
    fixed letter, whatever stands before the digits of the tag name. *)
Theorem C4_next_is_v_then_nextStrict (latestTag : Tag) (fuel n : nat) (bump : Bump) :
  nth_error nodes 0 = Some latestTag ->
  stops latestTag n -> n <= fuel ->
  decision parser (range latestTag n) = Some bump ->
  let nextStrict := semver_inc (name latestTag) (bump_name bump) in
  option_map exports (run fuel)
  = Some [("next", JsString ("v" ++ template nextStrict)); ("nextStrict", nextStrict)].
Proof.
  intros Htag Hstop Hfuel Hdec nextStrict.
  apply (main_success_exports latestTag fuel n bump Htag Hstop Hfuel Hdec).
Qed.

(** C8: with no tag the run is the single failure "Couldn't find the latest
    tag..."; with an empty range it is one log line and the failure
    "Couldn't find any commits..."; with all counters at zero it is log lines
    and the failure "No commit resulted in a version bump...".  Every run
    that returns either ends with its only failure message and exports
    nothing, or reports no failure and ends with the export of [next] and
    [nextStrict], which happens only with a tag, a non-empty range and a
    decision. *)
Theorem C8_failures_export_nothing :
  (nth_error nodes 0 = None ->
   forall fuel, run fuel = Some [core_setFailed msg_no_tag]) /\
  (forall latestTag fuel n,
      nth_error nodes 0 = Some latestTag -> stops latestTag n -> n <= fuel ->
      range latestTag n = [] ->
      run fuel
      = Some [core_info ("Comparing against latest tag: " ++ name latestTag);
              core_setFailed msg_no_commits]) /\
  (forall latestTag fuel n,
      nth_error nodes 0 = Some latestTag -> stops latestTag n -> n <= fuel ->
      range latestTag n <> [] ->
      decision parser (range latestTag n) = None ->
      run fuel
      = Some (core_info ("Comparing against latest tag: " ++ name latestTag)
              :: narration (range latestTag n) ++ [core_setFailed msg_no_bump])) /\
  (forall fuel tr,
      run fuel = Some tr ->
      (exists log m,
          tr = log ++ [core_setFailed m] /\ forallb is_info log = true /\
          In m [msg_no_tag; msg_no_commits; msg_no_bump] /\
          failures tr = [m] /\ exports tr = []) \/
      (exists log v latestTag n bump,
          tr = log ++ [core_exportVariable "next" (JsString ("v" ++ template v));
                       core_exportVariable "nextStrict" v] /\
          forallb is_info log = true /\
          nth_error nodes 0 = Some latestTag /\
          range latestTag n <> [] /\
          decision parser (range latestTag n) = Some bump /\
          failures tr = [] /\
          exports tr = [("next", JsString ("v" ++ template v)); ("nextStrict", v)])).
Proof.
  split; [|split; [|split]].
  - intros Htag fuel. unfold run, main. now rewrite Htag.
  - intros latestTag fuel n Htag Hstop Hfuel Hnil.
    rewrite (main_last_page latestTag fuel n Htag Hstop Hfuel). now rewrite Hnil.
  - intros latestTag fuel n Htag Hstop Hfuel Hne Hnone.
    rewrite (main_last_page latestTag fuel n Htag Hstop Hfuel).
    destruct (length (range latestTag n) <? 1) eqn:Hlen.
    + apply length_ltb_1 in Hlen. contradiction.
    + now rewrite (bump_version_none latestTag _ Hnone).
  - intros fuel tr Hrun.
    destruct (nth_error nodes 0) as [latestTag|] eqn:Htag.
    + unfold run, main in Hrun. rewrite Htag in Hrun.
      destruct (fetch_loop compareCommitsWithBasehead branch latestTag fuel 0 [])
        as [[cs n]|] eqn:Hloop; [|discriminate Hrun].
      apply fetch_loop_returns in Hloop. destruct Hloop as (Hstop & Hfuel & Hcs).
      fold (range latestTag n) in Hcs. subst cs.
      set (hello := core_info ("Comparing against latest tag: " ++ name latestTag)) in *.
      destruct (length (range latestTag n) <? 1) eqn:Hlen.
      * left. exists [hello], msg_no_commits.
        inversion Hrun; subst tr. simpl. intuition.
      * assert (Hne : range latestTag n <> [])
          by (intros Hnil; apply length_ltb_1 in Hnil; congruence).
        assert (Hlog : forallb is_info (hello :: narration (range latestTag n)) = true)
          by (simpl; apply narration_info_only).
        destruct (decision parser (range latestTag n)) as [bump|] eqn:Hdec.
        -- right.
           exists ((hello :: narration (range latestTag n))
                   ++ [core_info (nl ++ ">>> Will bump version " ++ name latestTag
                                  ++ " using " ++ toUpperCase (bump_name bump) ++ nl);
                       core_info ("Next version is v"
                                  ++ template (semver_inc (name latestTag)
                                                 (bump_name bump)))]),
             (semver_inc (name latestTag) (bump_name bump)), latestTag, n, bump.
           rewrite (bump_version_some latestTag _ bump Hdec) in Hrun.
           inversion Hrun; subst tr.
           repeat split; auto.
           ++ simpl. now rewrite <- !app_assoc.
           ++ rewrite forallb_app, Hlog. reflexivity.
           ++ rewrite app_comm_cons, failures_app, (info_only_failures _ Hlog).
              reflexivity.
           ++ rewrite app_comm_cons, exports_app, (info_only_exports _ Hlog).
              reflexivity.
        -- left. exists (hello :: narration (range latestTag n)), msg_no_bump.
           rewrite (bump_version_none latestTag _ Hdec) in Hrun.
           inversion Hrun; subst tr.
           repeat split; auto.
           ++ simpl. auto.
           ++ rewrite app_comm_cons, failures_app, (info_only_failures _ Hlog).
              reflexivity.
           ++ rewrite app_comm_cons, exports_app, (info_only_exports _ Hlog).
              reflexivity.
    + left. exists [], msg_no_tag.
      unfold run, main in Hrun. rewrite Htag in Hrun.
      inversion Hrun; subst tr. simpl. intuition.
Qed.

(** C10: the tag name is not checked.  With a tag, a range whose decision
    is some bump, and an incrementer that answers null for that tag name,
    the run reports no failure and ends with the log line "Next version is
    vnull" and the exports [next = "vnull"] and [nextStrict = null]. *)
Theorem C10_null_increment_is_exported (latestTag : Tag) (fuel n : nat) (bump : Bump) :
  nth_error nodes 0 = Some latestTag ->
  stops latestTag n -> n <= fuel ->
  decision parser (range latestTag n) = Some bump ->
  semver_inc (name latestTag) (bump_name bump) = JsNull ->
  run fuel
  = Some (core_info ("Comparing against latest tag: " ++ name latestTag)
          :: narration (range latestTag n) ++
          [core_info (nl ++ ">>> Will bump version " ++ name latestTag ++ " using "
                      ++ toUpperCase (bump_name bump) ++ nl);
           core_info "Next version is vnull";
           core_exportVariable "next" (JsString "vnull");
           core_exportVariable "nextStrict" JsNull]) /\
  option_map failures (run fuel) = Some [] /\
  option_map exports (run fuel)
  = Some [("next", JsString "vnull"); ("nextStrict", JsNull)].
Proof.
  intros Htag Hstop Hfuel Hdec Hnull.
  destruct (main_success_exports latestTag fuel n bump Htag Hstop Hfuel Hdec)
    as [Hexp Hfail].
  rewrite Hnull in Hexp.
  split; [|split; [exact Hfail | exact Hexp]].
  rewrite (main_success latestTag fuel n bump Htag Hstop Hfuel Hdec).
  unfold closing. now rewrite Hnull.
Qed.

End RunProperties.

(** ** The properties at concrete inputs *)

(** A feat commit with a BREAKING CHANGE footer counts once as minor and
    once as major. *)
Lemma C5_feat_with_breaking_footer :
  let c := mk_commit "c9"
             ("feat: c" ++ nl ++ nl ++ "BREAKING CHANGE: new config format") in
  let cAst := {| type := "feat"; notes := [breaking_note "new config format"] |} in
  sample_parser (message c) = Some cAst /\
  majorChanges (fst (scan_commit sample_parser tally0 c)) = 1 /\
  minorChanges (fst (scan_commit sample_parser tally0 c)) = 1 /\
  patchChanges (fst (scan_commit sample_parser tally0 c)) = 0.
Proof.
  intros c cAst.
  assert (Hparse : sample_parser (message c) = Some cAst) by reflexivity.
  split; [exact Hparse|].
  destruct (C5_breaking_notes_count_as_major sample_parser tally0 c cAst Hparse)
    as (Hmajor & _ & Hminor & _).
  split; [exact Hmajor|]. apply Hminor. reflexivity.
Defined.

(** A merge commit between two fixes is skipped and the scan goes on. *)
Lemma C7_merge_commit_between_fixes :
  let c := mk_commit "m1" "Merge branch 'dev'" in
  sample_parser (message c) = None /\
  fst (scan_commits sample_parser [mk_commit "c1" "fix: a"; c; mk_commit "c2" "fix: b"])
  = {| majorChanges := 0; minorChanges := 0; patchChanges := 2 |} /\
  decision sample_parser [mk_commit "c1" "fix: a"; c; mk_commit "c2" "fix: b"]
  = Some BumpPatch.
Proof.
  intros c.
  assert (Hparse : sample_parser (message c) = None) by reflexivity.
  split; [exact Hparse|].
  destruct (C7_parse_failure_is_skipped sample_parser c Hparse) as (_ & _ & Hskip).
  destruct (Hskip [mk_commit "c1" "fix: a"] [mk_commit "c2" "fix: b"]) as [Ht Hd].
  split; etransitivity; [exact Ht | reflexivity | exact Hd | reflexivity].
Defined.

(** Swapping a fix and a feat changes neither the counters nor the decision. *)
Lemma C9_swap_two_commits :
  let cs := [mk_commit "c1" "fix: a"; mk_commit "c2" "feat: b"] in
  let cs' := [mk_commit "c2" "feat: b"; mk_commit "c1" "fix: a"] in
  Permutation cs cs' /\
  fst (scan_commits sample_parser cs) = fst (scan_commits sample_parser cs') /\
  decision sample_parser cs = decision sample_parser cs' /\
  Permutation (snd (scan_commits sample_parser cs)) (snd (scan_commits sample_parser cs')).
Proof.
  intros cs cs'.
  assert (Hperm : Permutation cs cs') by apply perm_swap.
  split; [exact Hperm|].
  exact (C9_order_independent sample_parser cs cs' Hperm).
Defined.

(** The tag release-abc with one fix commit: the run exports vnull. *)
Lemma C10_release_abc_exports_vnull :
  sample_semver_inc "release-abc" "patch" = JsNull /\
  sample_run tag_release_abc [mk_commit "c1" "fix: a"]
  = Some
      [core_info "Comparing against latest tag: release-abc";
       core_info "[PATCH] Commit c1 of type fix will cause a patch version bump.";
       core_info (nl ++ ">>> Will bump version release-abc using PATCH" ++ nl);
       core_info "Next version is vnull";
       core_exportVariable "next" (JsString "vnull");
       core_exportVariable "nextStrict" JsNull].
Proof.
  assert (Hnull : sample_semver_inc (name tag_release_abc) (bump_name BumpPatch) = JsNull)
    by reflexivity.
  split; [exact Hnull|].
  assert (Hstop : last_page (paged [[mk_commit "c1" "fix: a"]] 1) "main" tag_release_abc 1).
  { split; [lia|]. split; [intros p Hp; lia | vm_compute; lia]. }
  assert (Hfuel : 1 <= 5) by lia.
  exact (proj1 (C10_null_increment_is_exported
                  sample_parser sample_semver_inc (paged [[mk_commit "c1" "fix: a"]] 1)
                  "main" [tag_release_abc] tag_release_abc 5 1 BumpPatch
                  eq_refl Hstop Hfuel eq_refl Hnull)).
Defined.

(** The tag 1.2.3, which has no prefix, with one fix commit: [next] is
    v1.2.4 and [nextStrict] is 1.2.4. *)
Lemma C4_bare_tag_gets_v :
  option_map exports (sample_run tag_123 [mk_commit "c1" "fix: a"])
  = Some [("next", JsString "v1.2.4"); ("nextStrict", JsString "1.2.4")].
Proof.
  assert (Hstop : last_page (paged [[mk_commit "c1" "fix: a"]] 1) "main" tag_123 1).
  { split; [lia|]. split; [intros p Hp; lia | vm_compute; lia]. }
  assert (Hfuel : 1 <= 5) by lia.
  exact (C4_next_is_v_then_nextStrict
           sample_parser sample_semver_inc (paged [[mk_commit "c1" "fix: a"]] 1)
           "main" [tag_123] tag_123 5 1 BumpPatch eq_refl Hstop Hfuel eq_refl).
Defined.

(** C4 as stated fails on a tag without a prefix: for the tag 1.2.3 the
    prefix is empty, so [next] would have to be 1.2.4, and the run exports
    v1.2.4. *)
Lemma C4_counterexample_bare_tag :
  spec_tag_prefix "1.2.3" = "" /\
  option_map exports (sample_run tag_123 [mk_commit "c1" "fix: a"])
  = Some [("next", JsString "v1.2.4"); ("nextStrict", JsString "1.2.4")] /\
  spec_prefix_reattached "1.2.3"
    [("next", JsString "v1.2.4"); ("nextStrict", JsString "1.2.4")] = false.
Proof. repeat split. Qed.

(** C2 as stated fails on short pages: with two pages of 50 commits and a
    reported total of 120, the loop stops after page 2 with 100 commits
    fetched, below the total, and never requests page 3. *)
Lemma C2_counterexample_short_pages :
  fetch_loop (paged half_pages 120) "main" tag_v123 5 0 []
  = Some (repeat (mk_commit "aaa" "fix: a") 50 ++ repeat (mk_commit "bbb" "fix: b") 50, 2) /\
  length (fetched (paged half_pages 120) "main" tag_v123 2) = 100 /\
  page_total (paged half_pages 120) "main" tag_v123 2 = 120 /\
  (length (fetched (paged half_pages 120) "main" tag_v123 2)
   <? page_total (paged half_pages 120) "main" tag_v123 2) = true /\
  length (page_commits (paged half_pages 120) "main" tag_v123 3) = 20.
Proof. repeat split. Qed.

(** With full pages the same total is reached: 100 + 20 commits in two
    requests. *)
Example pagination_full_then_short :
  option_map (fun r => (length (fst r), snd r))
    (fetch_loop
       (paged [repeat (mk_commit "aaa" "fix: a") 100;
               repeat (mk_commit "bbb" "fix: b") 20] 120)
       "main" tag_v123 5 0 [])
  = Some (120, 2).
Proof. reflexivity. Qed.

(** Two fixes, a feat and one breaking fix: the decision is major. *)
Lemma C1_one_breaking_among_others :
  decision sample_parser
    [mk_commit "c1" "fix: a"; mk_commit "c2" "feat: b";
     mk_commit "c3" ("fix: a" ++ nl ++ nl ++ "BREAKING CHANGE: drops support");
     mk_commit "c4" "fix: b"]
  = Some BumpMajor.
Proof.
  destruct (C1_decision_by_priority sample_parser
              [mk_commit "c1" "fix: a"; mk_commit "c2" "feat: b";
               mk_commit "c3" ("fix: a" ++ nl ++ nl ++ "BREAKING CHANGE: drops support");
               mk_commit "c4" "fix: b"])
    as (_ & _ & _ & _ & Hmajor).
  apply (Hmajor
           (mk_commit "c3" ("fix: a" ++ nl ++ nl ++ "BREAKING CHANGE: drops support"))
           {| type := "fix"; notes := [breaking_note "drops support"] |}).
  - simpl. auto.
  - reflexivity.
  - right. vm_compute. lia.
Defined.

(** A full page and then a short one, total 120: the loop stops after page
    2, when the 120 commits are there, and not after page 1. *)
Lemma C2_full_page_then_short_page :
  let serve := paged [repeat (mk_commit "aaa" "fix: a") 100;
                      repeat (mk_commit "bbb" "fix: b") 20] 120 in
  page_total serve "main" tag_v123 2 <= length (fetched serve "main" tag_v123 2) /\
  length (fetched serve "main" tag_v123 1) < page_total serve "main" tag_v123 1.
Proof.
  intros serve.
  destruct (C2_pagination_stops_on_offset_estimate serve "main" tag_v123)
    as (_ & _ & Hfull & _).
  destruct (Hfull 5 (fetched serve "main" tag_v123 2) 2) as [Hstop Hbefore].
  - reflexivity.
  - intros p Hp. replace p with 1 by lia. reflexivity.
  - split; [exact Hstop | apply Hbefore; lia].
Defined.

(** One chore commit after the tag v1.2.3: the run fails for lack of a bump. *)
Lemma C3_only_a_chore :
  sample_run tag_v123 [mk_commit "c1" "chore: x"]
  = Some
      [core_info "Comparing against latest tag: v1.2.3";
       core_info "[SKIP] Commit c1 of type chore will not cause any version bump.";
       core_setFailed msg_no_bump].
Proof.
  destruct (C3_none_iff_nothing_counts
              sample_parser sample_semver_inc (paged [[mk_commit "c1" "chore: x"]] 1)
              "main" [tag_v123] [mk_commit "c1" "chore: x"])
    as (_ & _ & _ & Hrun).
  apply (Hrun tag_v123 5 1).
  - reflexivity.
  - split; [lia|]. split; [intros p Hp; lia | vm_compute; lia].
  - lia.
  - reflexivity.
  - discriminate.
  - reflexivity.
Defined.

(** A feat commit adds one to the minor counter, a fix commit one to the
    patch counter, and a chore commit is logged as SKIP and leaves the
    counters. *)
Lemma C6_chore_is_a_no_op :
  fst (bump_by_type tally0 (mk_commit "c2" "feat: b") {| type := "feat"; notes := [] |})
  = {| majorChanges := 0; minorChanges := 1; patchChanges := 0 |} /\
  fst (bump_by_type tally0 (mk_commit "c1" "fix: a") {| type := "fix"; notes := [] |})
  = {| majorChanges := 0; minorChanges := 0; patchChanges := 1 |} /\
  bump_by_type tally0 (mk_commit "c1" "chore: x") {| type := "chore"; notes := [] |}
  = (tally0,
     [core_info "[SKIP] Commit c1 of type chore will not cause any version bump."]).
Proof.
  destruct (C6_type_table sample_parser tally0 (mk_commit "c2" "feat: b")
              {| type := "feat"; notes := [] |})
    as (_ & _ & _ & Hminor & _).
  destruct (C6_type_table sample_parser tally0 (mk_commit "c1" "fix: a")
              {| type := "fix"; notes := [] |})
    as (_ & _ & _ & _ & Hpatch & _).
  destruct (C6_type_table sample_parser tally0 (mk_commit "c1" "chore: x")
              {| type := "chore"; notes := [] |})
    as (_ & _ & _ & _ & _ & Hskip & _).
  split; [apply Hminor; now left|].
  split; [apply Hpatch; simpl; auto|].
  apply Hskip; reflexivity.
Defined.

(** No tag at all, and a tag with an empty range. *)
Lemma C8_no_tag_and_empty_range :
  main sample_parser sample_semver_inc (paged [[]] 0) "main" [] 5
  = Some [core_setFailed msg_no_tag] /\
  sample_run tag_v123 []
  = Some [core_info "Comparing against latest tag: v1.2.3";
          core_setFailed msg_no_commits].
Proof.
  split.
  - apply (proj1 (C8_failures_export_nothing
                    sample_parser sample_semver_inc (paged [[]] 0) "main" [])).
    reflexivity.
  - apply (proj1 (proj2 (C8_failures_export_nothing
                           sample_parser sample_semver_inc (paged [[]] 0) "main"
                           [tag_v123])) tag_v123 5 1).
    + reflexivity.
    + split; [lia|]. split; [intros p Hp; lia | vm_compute; lia].
    + lia.
    + reflexivity.
Defined.

(** ** Further properties of the classifier *)

Lemma resolve_bump_major (t : Tally) :
  resolve_bump t = Some BumpMajor <-> 0 < majorChanges t.
Proof.
  unfold resolve_bump.
  destruct (Nat.ltb_spec 0 (majorChanges t));
    destruct (Nat.ltb_spec 0 (minorChanges t));
    destruct (Nat.ltb_spec 0 (patchChanges t));
    split; intros; try discriminate; try reflexivity; lia.
Qed.

Lemma resolve_bump_minor (t : Tally) :
  resolve_bump t = Some BumpMinor <-> majorChanges t = 0 /\ 0 < minorChanges t.
Proof.
  unfold resolve_bump.
  destruct (Nat.ltb_spec 0 (majorChanges t));
    destruct (Nat.ltb_spec 0 (minorChanges t));
    destruct (Nat.ltb_spec 0 (patchChanges t));
    split; intros; try discriminate; try reflexivity; lia.
Qed.

Lemma resolve_bump_patch (t : Tally) :
  resolve_bump t = Some BumpPatch
  <-> majorChanges t = 0 /\ minorChanges t = 0 /\ 0 < patchChanges t.
Proof.
  unfold resolve_bump.
  destruct (Nat.ltb_spec 0 (majorChanges t));
    destruct (Nat.ltb_spec 0 (minorChanges t));
    destruct (Nat.ltb_spec 0 (patchChanges t));
    split; intros; try discriminate; try reflexivity; lia.
Qed.

Lemma resolve_bump_mono (t t' : Tally) :
  majorChanges t <= majorChanges t' ->
  minorChanges t <= minorChanges t' ->
  patchChanges t <= patchChanges t' ->
  severity (resolve_bump t) <= severity (resolve_bump t').
Proof.
  intros Hma Hmi Hpa. unfold resolve_bump.
  destruct (Nat.ltb_spec 0 (majorChanges t));
    destruct (Nat.ltb_spec 0 (minorChanges t));
    destruct (Nat.ltb_spec 0 (patchChanges t));
    destruct (Nat.ltb_spec 0 (majorChanges t'));
    destruct (Nat.ltb_spec 0 (minorChanges t'));
    destruct (Nat.ltb_spec 0 (patchChanges t'));
    simpl; lia.
Qed.

Section ClassifierExtras.

Variable parser : string -> option CAst.

Lemma tally_sum_major_pos (cs : list Commit) :
  0 < majorChanges (tally_sum parser cs)
  <-> exists c, In c cs /\ 0 < majorChanges (commit_delta parser c).
Proof. counter_pos_iff cs (fun c => majorChanges (commit_delta parser c)). Qed.

Lemma tally_sum_minor_pos (cs : list Commit) :
  0 < minorChanges (tally_sum parser cs)
  <-> exists c, In c cs /\ 0 < minorChanges (commit_delta parser c).
Proof. counter_pos_iff cs (fun c => minorChanges (commit_delta parser c)). Qed.

Lemma tally_sum_patch_pos (cs : list Commit) :
  0 < patchChanges (tally_sum parser cs)
  <-> exists c, In c cs /\ 0 < patchChanges (commit_delta parser c).
Proof. counter_pos_iff cs (fun c => patchChanges (commit_delta parser c)). Qed.

Lemma commit_major_pos (c : Commit) :
  0 < majorChanges (commit_delta parser c) <-> carries_breaking parser c.
Proof.
  unfold commit_delta, carries_breaking.
  destruct (parser (message c)) as [cAst|]; simpl.
  - split.
    + intros H. exists cAst. split; [reflexivity | exact H].
    + intros (a & Ha & Hb). inversion Ha; subst a. exact Hb.
  - split; [lia | intros (a & Ha & _); discriminate Ha].
Qed.

Lemma commit_minor_pos (c : Commit) :
  0 < minorChanges (commit_delta parser c) <-> typed_in parser (minor bumpTypes) c.
Proof.
  unfold commit_delta, typed_in.
  destruct (parser (message c)) as [cAst|].
  - unfold ast_delta. cbn [minorChanges]. rewrite includes_major_false. split.
    + intros H. exists cAst. split; [reflexivity|].
      destruct (includes (minor bumpTypes) (type cAst)); [reflexivity | lia].
    + intros (a & Ha & Hb). inversion Ha; subst a. rewrite Hb. lia.
  - split; [simpl; lia | intros (a & Ha & _); discriminate Ha].
Qed.

Lemma commit_patch_pos (c : Commit) :
  0 < patchChanges (commit_delta parser c)
  <-> exists cAst, parser (message c) = Some cAst /\
                   includes (minor bumpTypes) (type cAst) = false /\
                   includes (patch bumpTypes) (type cAst) = true.
Proof.
  unfold commit_delta.
  destruct (parser (message c)) as [cAst|].
  - unfold ast_delta. cbn [patchChanges]. rewrite includes_major_false. split.
    + intros H. exists cAst. split; [reflexivity|].
      destruct (includes (minor bumpTypes) (type cAst)); [lia|].
      destruct (includes (patch bumpTypes) (type cAst)); [auto | lia].
    + intros (a & Ha & Hmi & Hpa). inversion Ha; subst a. rewrite Hmi, Hpa. lia.
  - split; [simpl; lia | intros (a & Ha & _); discriminate Ha].
Qed.

Lemma no_breaking_major_0 (cs : list Commit) :
  majorChanges (tally_sum parser cs) = 0
  <-> forall c, In c cs -> ~ carries_breaking parser c.
Proof.
  rewrite tally_sum_major_0. split; intros H c Hin.
  - rewrite <- commit_major_pos. specialize (H c Hin). lia.
  - specialize (H c Hin). rewrite <- commit_major_pos in H. lia.
Qed.

Lemma no_minor_type_minor_0 (cs : list Commit) :
  minorChanges (tally_sum parser cs) = 0
  <-> forall c, In c cs -> ~ typed_in parser (minor bumpTypes) c.
Proof.
  rewrite tally_sum_minor_0. split; intros H c Hin.
  - rewrite <- commit_minor_pos. specialize (H c Hin). lia.
  - specialize (H c Hin). rewrite <- commit_minor_pos in H. lia.
Qed.

(** X1: the decision is major exactly when some commit of the list parses
    and has a note titled BREAKING CHANGE; with the major list empty, no
    type alone gives a major bump. *)
Theorem major_iff_breaking_note (cs : list Commit) :
  decision parser cs = Some BumpMajor
  <-> exists c, In c cs /\ carries_breaking parser c.
Proof.
  unfold decision. rewrite resolve_bump_major, scan_commits_tally, tally_sum_major_pos.
  split; intros (c & Hin & H); exists c; split; auto; now apply commit_major_pos.
Qed.

(** X2: the decision is minor exactly when no commit carries a BREAKING
    CHANGE note and some commit parses with the type feat or feature. *)
Theorem minor_iff_feature_without_breaking (cs : list Commit) :
  decision parser cs = Some BumpMinor
  <-> (forall c, In c cs -> ~ carries_breaking parser c) /\
      exists c cAst, In c cs /\ parser (message c) = Some cAst /\
                     (type cAst = "feat" \/ type cAst = "feature").
Proof.
  unfold decision.
  rewrite resolve_bump_minor, scan_commits_tally, no_breaking_major_0,
    tally_sum_minor_pos.
  split; intros [Hnb Hex]; (split; [exact Hnb|]).
  - destruct Hex as (c & Hin & Hpos). apply commit_minor_pos in Hpos.
    destruct Hpos as (a & Ha & Hty). exists c, a. repeat split; auto.
    now apply includes_minor_iff.
  - destruct Hex as (c & a & Hin & Ha & Hty). exists c. split; [exact Hin|].
    apply commit_minor_pos. exists a. split; [exact Ha|].
    now apply includes_minor_iff.
Qed.

(** X3: the decision is patch exactly when no commit carries a BREAKING
    CHANGE note, no commit parses with a type of the minor list, and some
    commit parses with one of fix, bugfix, perf, refactor, test, tests. *)
Theorem patch_iff_fix_without_feature (cs : list Commit) :
  decision parser cs = Some BumpPatch
  <-> (forall c, In c cs -> ~ carries_breaking parser c) /\
      (forall c, In c cs -> ~ typed_in parser (minor bumpTypes) c) /\
      exists c cAst, In c cs /\ parser (message c) = Some cAst /\
                     In (type cAst) ["fix"; "bugfix"; "perf"; "refactor"; "test"; "tests"].
Proof.
  unfold decision.
  rewrite resolve_bump_patch, scan_commits_tally, no_breaking_major_0,
    no_minor_type_minor_0, tally_sum_patch_pos.
  split; intros (Hnb & Hnm & Hex); (split; [exact Hnb | split; [exact Hnm|]]).
  - destruct Hex as (c & Hin & Hpos). apply commit_patch_pos in Hpos.
    destruct Hpos as (a & Ha & _ & Hty). exists c, a. repeat split; auto.
    now apply includes_patch_iff.
  - destruct Hex as (c & a & Hin & Ha & Hty). exists c. split; [exact Hin|].
    apply commit_patch_pos. exists a. split; [exact Ha|].
    split; [|now apply includes_patch_iff].
    destruct (includes (minor bumpTypes) (type a)) eqn:Hmi; [|reflexivity].
    exfalso. apply (Hnm c Hin). exists a. auto.
Qed.

Lemma commit_listed_count (c : Commit) :
  minorChanges (commit_delta parser c) + patchChanges (commit_delta parser c)
  = if listed_type parser c then 1 else 0.
Proof.
  unfold commit_delta, listed_type.
  destruct (parser (message c)) as [cAst|]; [|reflexivity].
  unfold ast_delta. cbn [minorChanges patchChanges]. rewrite includes_major_false.
  destruct (includes (minor bumpTypes) (type cAst));
    destruct (includes (patch bumpTypes) (type cAst)); reflexivity.
Qed.

(** X4: after the scan, the minor and patch counters together count the
    commits that parse with a type of the minor or patch list, one each; so
    their sum never exceeds the number of commits. *)
Theorem type_counters_count_listed_commits (cs : list Commit) :
  minorChanges (fst (scan_commits parser cs)) + patchChanges (fst (scan_commits parser cs))
  = length (filter (listed_type parser) cs) /\
  minorChanges (fst (scan_commits parser cs)) + patchChanges (fst (scan_commits parser cs))
  <= length cs.
Proof.
  rewrite scan_commits_tally.
  assert (Hcount : minorChanges (tally_sum parser cs) + patchChanges (tally_sum parser cs)
                   = length (filter (listed_type parser) cs)).
  { induction cs as [|c cs IH]; simpl; [reflexivity|].
    pose proof (commit_listed_count c) as Hc.
    destruct (listed_type parser c); simpl; lia. }
  split; [exact Hcount|]. rewrite Hcount.
  clear Hcount. induction cs as [|c cs IH]; simpl; [lia|].
  destruct (listed_type parser c); simpl; lia.
Qed.

Lemma bump_by_notes_log_length (c : Commit) (ns : list Note) :
  forall t, length (snd (bump_by_notes t c ns)) = length (filter is_breaking ns).
Proof.
  induction ns as [|n ns IH]; intros t; simpl; [reflexivity|].
  unfold is_breaking at 1.
  destruct (String.eqb (title n) "BREAKING CHANGE"); [|apply IH].
  specialize (IH (incr_major t)).
  destruct (bump_by_notes (incr_major t) c ns) as [t' log]; simpl in *.
  now rewrite IH.
Qed.

Lemma scan_commit_log_length (c : Commit) :
  length (snd (scan_commit parser tally0 c))
  = 1 + majorChanges (commit_delta parser c).
Proof.
  unfold scan_commit, commit_delta.
  destruct (parser (message c)) as [cAst|]; [|reflexivity].
  assert (Hty : length (snd (bump_by_type tally0 c cAst)) = 1).
  { unfold bump_by_type.
    repeat match goal with |- context [if ?b then _ else _] => destruct b end;
      reflexivity. }
  destruct (bump_by_type tally0 c cAst) as [t1 log1].
  pose proof (bump_by_notes_log_length c (notes cAst) t1) as Hns.
  destruct (bump_by_notes t1 c (notes cAst)) as [t2 log2]; simpl in *.
  rewrite length_app, Hty, Hns. reflexivity.
Qed.

(** X5: the scan logs one line for every commit, parsed or not, and one
    more for every increment of the major counter: the number of log lines
    is the number of commits plus the final major counter. *)
Theorem log_lines_count (cs : list Commit) :
  length (snd (scan_commits parser cs))
  = length cs + majorChanges (fst (scan_commits parser cs)).
Proof.
  rewrite scan_commits_tally. unfold scan_commits. rewrite scan_from_narration.
  induction cs as [|c cs IH]; simpl; [reflexivity|].
  rewrite length_app, IH, scan_commit_log_length. lia.
Qed.

(** X6: counters only grow: commits inserted anywhere in a list lower none
    of the three counters, and the decision of the longer list is at least
    as severe (none < patch < minor < major). *)
Theorem more_commits_never_lower_the_bump (before inserted after : list Commit) :
  majorChanges (fst (scan_commits parser (before ++ after)))
  <= majorChanges (fst (scan_commits parser (before ++ inserted ++ after))) /\
  minorChanges (fst (scan_commits parser (before ++ after)))
  <= minorChanges (fst (scan_commits parser (before ++ inserted ++ after))) /\
  patchChanges (fst (scan_commits parser (before ++ after)))
  <= patchChanges (fst (scan_commits parser (before ++ inserted ++ after))) /\
  severity (decision parser (before ++ after))
  <= severity (decision parser (before ++ inserted ++ after)).
Proof.
  assert (Hle : majorChanges (fst (scan_commits parser (before ++ after)))
                <= majorChanges (fst (scan_commits parser (before ++ inserted ++ after))) /\
                minorChanges (fst (scan_commits parser (before ++ after)))
                <= minorChanges (fst (scan_commits parser (before ++ inserted ++ after))) /\
                patchChanges (fst (scan_commits parser (before ++ after)))
                <= patchChanges (fst (scan_commits parser (before ++ inserted ++ after)))).
  { rewrite !scan_commits_tally, !tally_sum_app. unfold tally_add; simpl.
    repeat split; lia. }
  destruct Hle as (Hma & Hmi & Hpa). repeat split; try assumption.
  unfold decision. now apply resolve_bump_mono.
Qed.

Lemma tally_sum_messages (cs : list Commit) :
  forall cs', map message cs = map message cs' ->
              tally_sum parser cs = tally_sum parser cs'.
Proof.
  induction cs as [|c cs IH]; intros [|c' cs'] H; simpl in *; try discriminate.
  - reflexivity.
  - inversion H as [[Hm Hrest]]. unfold commit_delta.
    rewrite Hm, (IH cs' Hrest). reflexivity.
Qed.

(** X7: the counters and the decision depend on the commit messages only:
    two lists with the same messages in the same order, whatever their
    commit ids, give the same counters and the same decision. *)
Theorem decision_reads_messages_only (cs cs' : list Commit) :
  map message cs = map message cs' ->
  fst (scan_commits parser cs) = fst (scan_commits parser cs') /\
  decision parser cs = decision parser cs'.
Proof.
  intros Hmsg.
  assert (Ht : fst (scan_commits parser cs) = fst (scan_commits parser cs'))
    by (rewrite !scan_commits_tally; now apply tally_sum_messages).
  split; [exact Ht|]. unfold decision. now rewrite Ht.
Qed.

End ClassifierExtras.

(** ** Further properties of the pagination loop and of the run *)

Lemma firstn_chunk {A : Type} (a b : nat) :
  forall l : list A, firstn (a + b) l = firstn a l ++ firstn b (skipn a l).
Proof.
  induction a as [|a IH]; intros l; simpl; [reflexivity|].
  destruct l as [|x l]; simpl.
  - now rewrite firstn_nil.
  - now rewrite IH.
Qed.

Section RunExtras.

Variable parser : string -> option CAst.
Variable compareCommitsWithBasehead : string -> nat -> nat -> CompareResponse.
Variable branch : string.
Variable latestTag : Tag.

Let est := offset_estimate compareCommitsWithBasehead branch latestTag.
Let total := page_total compareCommitsWithBasehead branch latestTag.
Let page := page_commits compareCommitsWithBasehead branch latestTag.
Let upto := fetched compareCommitsWithBasehead branch latestTag.
Let loop := fetch_loop compareCommitsWithBasehead branch latestTag.

Lemma chunks_fetched (all : list Commit) :
  (forall p, page p = firstn 100 (skipn ((p - 1) * 100) all)) ->
  forall n, upto n = firstn (n * 100) all.
Proof.
  intros Hpage. induction n as [|n IH].
  - reflexivity.
  - unfold upto. rewrite fetched_S. fold upto page. rewrite IH, Hpage.
    replace (S n - 1) with n by lia.
    replace (S n * 100) with (n * 100 + 100) by lia.
    now rewrite firstn_chunk.
Qed.

Lemma contract_fetch (all : list Commit) (fuel : nat) :
  (forall p, page p = firstn 100 (skipn ((p - 1) * 100) all)) ->
  (forall p, total p = length all) ->
  length all <= fuel * 100 ->
  exists n,
    loop (S fuel) 0 [] = Some (all, n) /\
    1 <= n /\ length all <= n * 100 /\ (n = 1 \/ (n - 1) * 100 < length all).
Proof.
  intros Hpage Htotal Hfuel.
  assert (Hlen : forall p, length (page p) = Nat.min 100 (length all - (p - 1) * 100))
    by (intros p; now rewrite Hpage, length_firstn, length_skipn).
  destruct (fetch_loop_terminates compareCommitsWithBasehead branch latestTag
              (length all) fuel) with (k := 0) (acc := @nil Commit)
    as (cs & n & Hret).
  { intros p. fold total. rewrite Htotal. lia. }
  { simpl. exact Hfuel. }
  exists n. unfold loop. rewrite Hret.
  apply fetch_loop_returns in Hret.
  destruct Hret as ((H1 & Hbefore & Hstop) & _ & ->).
  fold est total in Hbefore, Hstop. fold upto.
  assert (Hn : length all <= n * 100).
  { rewrite Htotal in Hstop. unfold est, offset_estimate in Hstop.
    fold page in Hstop. rewrite Hlen in Hstop. lia. }
  split; [|split; [exact H1 | split; [exact Hn|]]].
  - rewrite (chunks_fetched all Hpage). now rewrite firstn_all2.
  - destruct (Nat.eq_dec n 1) as [->|Hne]; [now left | right].
    specialize (Hbefore (n - 1)). rewrite Htotal in Hbefore.
    unfold est, offset_estimate in Hbefore. fold page in Hbefore.
    rewrite Hlen in Hbefore. lia.
Qed.

(** X9: against an endpoint that keeps the pagination contract on a range
    (page p holds the commits from index (p - 1) * 100 on, at most 100 of
    them, and every page reports the length of the range) the loop returns
    the whole range, each commit once and in order, after as many requests
    as the range has pages, or one request when it is empty. *)
Theorem contract_pagination_collects_range (all : list Commit) (fuel : nat) :
  (forall p, page p = firstn 100 (skipn ((p - 1) * 100) all)) ->
  (forall p, total p = length all) ->
  length all <= fuel * 100 ->
  exists n,
    loop (S fuel) 0 [] = Some (all, n) /\
    1 <= n /\ length all <= n * 100 /\ (n = 1 \/ (n - 1) * 100 < length all).
Proof. exact (contract_fetch all fuel). Qed.

Lemma fetch_loop_never (fuel : nat) :
  (forall p, 1 <= p -> est p < total p) ->
  forall k acc, loop fuel k acc = None.
Proof.
  intros Hahead. unfold loop, est, total in *.
  induction fuel as [|fuel IH]; intros k acc; [reflexivity|].
  rewrite fetch_loop_S.
  destruct (Nat.ltb_spec
              (offset_estimate compareCommitsWithBasehead branch latestTag (S k))
              (page_total compareCommitsWithBasehead branch latestTag (S k)))
    as [_|Hge]; [apply IH|].
  specialize (Hahead (S k)). lia.
Qed.

Variable nodes : list Tag.

(** X10: the loop has no bound of its own: when the total reported with
    every page stays above that page's offset estimate, the loop never
    stops, however many requests it is given, and the run neither fails nor
    exports anything. *)
Theorem total_always_ahead_never_stops (semver_inc : string -> string -> JsVal) :
  (forall p, 1 <= p -> est p < total p) ->
  nth_error nodes 0 = Some latestTag ->
  forall fuel,
    loop fuel 0 [] = None /\
    main parser semver_inc compareCommitsWithBasehead branch nodes fuel = None.
Proof.
  intros Hahead Htag fuel.
  pose proof (fetch_loop_never fuel Hahead 0 []) as Hloop.
  split; [exact Hloop|]. unfold main. rewrite Htag.
  unfold loop in Hloop. now rewrite Hloop.
Qed.

(** X11: a first response without the field total_commits counts as a total
    of 0: the loop makes one request and keeps the commits of that page; if
    the field commits is missing as well, the range is empty and the run
    fails with "Couldn't find any commits between HEAD and latest tag." *)
Theorem missing_total_means_one_request (semver_inc : string -> string -> JsVal) :
  total_commits (page_response compareCommitsWithBasehead branch latestTag 1) = None ->
  forall fuel,
    loop (S fuel) 0 [] = Some (page 1, 1) /\
    (commits (page_response compareCommitsWithBasehead branch latestTag 1) = None ->
     nth_error nodes 0 = Some latestTag ->
     main parser semver_inc compareCommitsWithBasehead branch nodes (S fuel)
     = Some [core_info ("Comparing against latest tag: " ++ name latestTag);
             core_setFailed msg_no_commits]).
Proof.
  intros Hmissing fuel.
  assert (Hloop : loop (S fuel) 0 [] = Some (page 1, 1)).
  { unfold loop. rewrite fetch_loop_S. unfold page_total. rewrite Hmissing.
    reflexivity. }
  split; [exact Hloop|].
  intros Hnone Htag. unfold main. rewrite Htag.
  unfold loop in Hloop. rewrite Hloop.
  unfold page, page_commits. now rewrite Hnone.
Qed.

(** X12: the version incrementer is consulted on the success path only:
    whether a run fails, and with which message, is the same for any two
    incrementers, and a run that reports a failure has the same events with
    either of them. *)
Theorem failing_runs_ignore_the_incrementer
    (inc1 inc2 : string -> string -> JsVal) (fuel : nat) :
  option_map failures (main parser inc1 compareCommitsWithBasehead branch nodes fuel)
  = option_map failures (main parser inc2 compareCommitsWithBasehead branch nodes fuel) /\
  (forall tr,
      main parser inc1 compareCommitsWithBasehead branch nodes fuel = Some tr ->
      failures tr <> [] ->
      main parser inc2 compareCommitsWithBasehead branch nodes fuel = Some tr).
Proof.
  unfold main.
  destruct (nth_error nodes 0) as [t|]; [|split; [reflexivity | auto]].
  destruct (fetch_loop compareCommitsWithBasehead branch t fuel 0 []) as [[cs n]|];
    [|split; [reflexivity | intros tr H; discriminate H]].
  destruct (length cs <? 1); [split; [reflexivity | auto]|].
  unfold bump_version.
  pose proof (scan_from_log parser cs tally0) as Hlog. fold (scan_commits parser cs) in Hlog.
  destruct (scan_commits parser cs) as [tl log]; simpl in Hlog.
  destruct (resolve_bump tl) as [bump|]; [|split; [reflexivity | auto]].
  split.
  - simpl. now rewrite !failures_app.
  - intros tr Htr Hfail. exfalso. apply Hfail.
    inversion Htr; subst tr. simpl.
    now rewrite failures_app, (info_only_failures log Hlog).
Qed.

(** X13: a whole run against an endpoint that keeps the pagination contract
    on a range: with a tag, the run classifies exactly that range; it fails
    with "Couldn't find any commits..." when the range is empty, and when
    the range decides on a bump it exports [nextStrict], the incrementer's
    answer for the tag name and that bump, and [next], the same with a v in
    front. *)
Theorem run_on_contract_endpoint
    (semver_inc : string -> string -> JsVal) (all : list Commit) (fuel : nat) :
  (forall p, page p = firstn 100 (skipn ((p - 1) * 100) all)) ->
  (forall p, total p = length all) ->
  length all <= fuel * 100 ->
  nth_error nodes 0 = Some latestTag ->
  main parser semver_inc compareCommitsWithBasehead branch nodes (S fuel)
  = Some (core_info ("Comparing against latest tag: " ++ name latestTag)
          :: (if length all <? 1
              then [core_setFailed msg_no_commits]
              else bump_version parser semver_inc latestTag all)) /\
  (forall bump,
      decision parser all = Some bump ->
      option_map exports
        (main parser semver_inc compareCommitsWithBasehead branch nodes (S fuel))
      = Some [("next",
               JsString ("v" ++ template (semver_inc (name latestTag) (bump_name bump))));
              ("nextStrict", semver_inc (name latestTag) (bump_name bump))]).
Proof.
  intros Hpage Htotal Hfuel Htag.
  destruct (contract_fetch all fuel Hpage Htotal Hfuel) as (n & Hloop & _).
  assert (Hrun : main parser semver_inc compareCommitsWithBasehead branch nodes (S fuel)
                 = Some (core_info ("Comparing against latest tag: " ++ name latestTag)
                         :: (if length all <? 1
                             then [core_setFailed msg_no_commits]
                             else bump_version parser semver_inc latestTag all))).
  { unfold main. rewrite Htag. unfold loop in Hloop. now rewrite Hloop. }
  split; [exact Hrun|].
  intros bump Hdec. rewrite Hrun.
  destruct (length all <? 1) eqn:Hlen.
  - apply length_ltb_1 in Hlen. subst all. discriminate Hdec.
  - rewrite (bump_version_some parser semver_inc latestTag all bump Hdec).
    cbn [option_map]. rewrite app_comm_cons, exports_app.
    rewrite info_only_exports; [reflexivity|].
    simpl. apply scan_from_log.
Qed.

End RunExtras.

(** ** The further properties at concrete inputs *)

(** The same two messages under other commit ids. *)
Lemma same_messages_other_ids :
  let cs := [mk_commit "c1" "fix: a"; mk_commit "c2" "feat: b"] in
  let cs' := [mk_commit "9f8e" "fix: a"; mk_commit "7d6c" "feat: b"] in
  fst (scan_commits sample_parser cs) = fst (scan_commits sample_parser cs') /\
  decision sample_parser cs = decision sample_parser cs'.
Proof.
  intros cs cs'.
  apply (decision_reads_messages_only sample_parser cs cs'). reflexivity.
Defined.

(** A range of 250 commits comes back whole after three requests. *)
Lemma range_of_250_in_three_pages :
  let all := repeat (mk_commit "aaa" "fix: a") 250 in
  fetch_loop (paginate all) "main" tag_v123 4 0 [] = Some (all, 3).
Proof.
  intros all.
  destruct (contract_pagination_collects_range (paginate all) "main" tag_v123 all 3)
    as (n & Hret & H1 & Hle & Hlast).
  - intros p. reflexivity.
  - intros p. reflexivity.
  - subst all. rewrite repeat_length. lia.
  - subst all. rewrite repeat_length in Hle, Hlast.
    replace n with 3 in Hret by lia. exact Hret.
Defined.

(** An endpoint whose total grows by a page with every request. *)
Lemma growing_total_keeps_the_loop_running :
  fetch_loop ever_growing "main" tag_v123 40 0 [] = None /\
  main sample_parser sample_semver_inc ever_growing "main" [tag_v123] 40 = None.
Proof.
  apply (total_always_ahead_never_stops
           sample_parser ever_growing "main" tag_v123 [tag_v123] sample_semver_inc).
  - intros p Hp.
    unfold offset_estimate, page_total, page_commits, page_response, ever_growing.
    simpl. lia.
  - reflexivity.
Defined.

(** A response with neither field: one request, then the failure. *)
Lemma bare_response_fails_for_lack_of_commits :
  fetch_loop bare_response "main" tag_v123 1 0 [] = Some ([], 1) /\
  main sample_parser sample_semver_inc bare_response "main" [tag_v123] 1
  = Some [core_info "Comparing against latest tag: v1.2.3";
          core_setFailed msg_no_commits].
Proof.
  destruct (missing_total_means_one_request
              sample_parser bare_response "main" tag_v123 [tag_v123] sample_semver_inc
              eq_refl 0) as [Hloop Hrun].
  split; [exact Hloop|]. apply Hrun; reflexivity.
Defined.

(** 120 fixes and one feat after the tag v1.2.3, served in two pages. *)
Lemma two_pages_with_a_feat_give_a_minor_bump :
  let all := repeat (mk_commit "aaa" "fix: a") 120 ++ [mk_commit "bbb" "feat: b"] in
  option_map exports
    (main sample_parser sample_semver_inc (paginate all) "main" [tag_v123] 3)
  = Some [("next", JsString "v1.3.0"); ("nextStrict", JsString "1.3.0")].
Proof.
  intros all.
  destruct (run_on_contract_endpoint
              sample_parser (paginate all) "main" tag_v123 [tag_v123]
              sample_semver_inc all 2) as [_ Hexports].
  - intros p. reflexivity.
  - intros p. reflexivity.
  - subst all. rewrite length_app, repeat_length. simpl. lia.
  - reflexivity.
  - apply (Hexports BumpMinor). vm_compute. reflexivity.
Defined.
